(** * Verification of the OCI registry getter of Helm

    The development embeds [internal/experimental/registry/getter.go] and
    [pkg/getter/registrygetter.go]: the retrieval pipeline [Get], the file
    name formatter [Filename] and the thin wrapper [RegistryGetter].  Go
    strings are byte sequences and are modelled by [string]; the Go standard
    library functions the program calls on them ([filepath.Base],
    [strings.Split], [fmt.Sprintf]) are written out below. *)

From Stdlib Require Import String Ascii List Arith Bool Lia.
Import ListNotations.
Local Open Scope string_scope.

(* ================================================================== *)
(** * Part I: definitions *)
(* ================================================================== *)

(** ** Go strings *)

(** [len(s)] *)
Definition len (s : string) : nat := String.length s.

(** [s[i:]] for [i <= len(s)]. *)
Fixpoint sliceFrom (i : nat) (s : string) : string :=
  match i, s with
  | 0, _ => s
  | S i', String _ r => sliceFrom i' r
  | S _, EmptyString => EmptyString
  end.

(** [s[:j]] for [j <= len(s)]. *)
Fixpoint sliceTo (j : nat) (s : string) : string :=
  match j, s with
  | 0, _ => EmptyString
  | S j', String b r => String b (sliceTo j' r)
  | S _, EmptyString => EmptyString
  end.

(** [strings.IndexByte]: the index of the first [c] in [s]; [None] stands
    for Go's [-1]. *)
Fixpoint IndexByte (s : string) (c : ascii) : option nat :=
  match s with
  | EmptyString => None
  | String b r => if Ascii.eqb b c then Some 0 else option_map S (IndexByte r c)
  end.

(** [bytealg.CountString]: the number of bytes of [s] equal to [c]. *)
Fixpoint CountString (s : string) (c : ascii) : nat :=
  match s with
  | EmptyString => 0
  | String b r => (if Ascii.eqb b c then 1 else 0) + CountString r c
  end.

(** The loop of [strings.genSplit].  The counter [k] is [n - i] of the Go
    loop [for i < n]; the list built is [a[:i+1]]. *)
Fixpoint genSplit (k : nat) (s : string) (sep : ascii) : list string :=
  match k with
  | 0 => [s]
  | S k' =>
      match IndexByte s sep with
      | None => [s]
      | Some m => sliceTo m s :: genSplit k' (sliceFrom (m + 1) s) sep
      end
  end.

(** [strings.Split(s, sep)] for a separator of one byte, the only kind the
    program passes (so that [Count] is [CountString] and [Index] is
    [IndexByte]). *)
Definition Split (s : string) (sep : ascii) : list string :=
  let n := CountString s sep + 1 in
  let n := if Nat.ltb (len s + 1) n then len s + 1 else n in
  genSplit (n - 1) s sep.

(** [fmt.Sprintf("%s-%s.tgz", a, b)] *)
Definition Sprintf_tgz (a b : string) : string := a ++ "-" ++ b ++ ".tgz".

(** ** [path/filepath] (Unix: the separator is ['/'], no volume names) *)

Definition IsPathSeparator (c : ascii) : bool := Ascii.eqb c "/".

(** First loop of [filepath.Base]:
    [for len(path) > 0 && os.IsPathSeparator(path[len(path)-1]) { path = path[0:len(path)-1] }].
    [path] only ever loses its last byte, so the loop state is its length [n];
    the result is the final length. *)
Fixpoint stripTrailing (path : string) (n : nat) : nat :=
  match n with
  | 0 => 0
  | S n' =>
      match String.get n' path with
      | Some c => if IsPathSeparator c then stripTrailing path n' else n
      | None => n
      end
  end.

(** Second loop of [filepath.Base]:
    [i := len(path) - 1; for i >= 0 && !os.IsPathSeparator(path[i]) { i-- }].
    The argument [k] is [i + 1]; the result is [None] when the loop ends with
    [i < 0] and [Some i] otherwise. *)
Fixpoint lastSeparator (path : string) (k : nat) : option nat :=
  match k with
  | 0 => None
  | S i =>
      match String.get i path with
      | Some c => if IsPathSeparator c then Some i else lastSeparator path i
      | None => lastSeparator path i
      end
  end.

(** [filepath.Base] *)
Definition Base (path : string) : string :=
  if String.eqb path "" then "."
  else
    let path := sliceTo (stripTrailing path (len path)) path in
    let path :=
      match lastSeparator path (len path) with
      | Some i => sliceFrom (i + 1) path
      | None => path
      end in
    if String.eqb path "" then "/" else path.

(** ** [net/url] *)

(** [url.Userinfo] *)
Record Userinfo : Type := {
  username : string;
  password : string;
  passwordSet : bool
}.

(** [url.URL]; [User] is a pointer that may be [nil]. *)
Record URL : Type := {
  Scheme : string;
  Opaque : string;
  User : option Userinfo;
  Host : string;
  Path : string;
  RawPath : string;
  ForceQuery : bool;
  RawQuery : string;
  Fragment : string
}.

(** ** [bytes.Buffer] *)

(** Only the contents of a buffer matter here; a [*bytes.Buffer] that may be
    [nil] is an [option Buffer]. *)
Record Buffer : Type := { contents : list Byte.byte }.

(** [bytes.NewBuffer(buf)] *)
Definition NewBuffer (buf : list Byte.byte) : Buffer := {| contents := buf |}.

(** The [Write] method of a buffer: appends [p]; its error is always nil. *)
Definition Buffer_Write (b : Buffer) (p : list Byte.byte) : Buffer :=
  {| contents := contents b ++ p |}.

(** ** [registry.Getter] and [getter.RegistryGetter] *)

Section Model.

(** Go's [error] interface, the repository's [Reference] and [chart.Chart]
    structs, the functional option type [getter.Option], and the state of
    everything the getter talks to (remote registry, local cache, network)
    are declared outside the two source files and stay abstract. *)
Context {error Reference Chart Option World : Type}.

(** A Go result [(v, err)] whose value is meaningful only when [err] is
    nil. *)
Inductive result (A : Type) : Type :=
| Ok (v : A)
| Err (err : error).
Arguments Ok {A} v.
Arguments Err {A} err.

(** The package-level functions [Get] calls.  [url.Parse] and
    [ParseReference] are pure.  [chartutil.Write(c, w)] reaches its writer
    only through [w.Write]; what it does is the bytes it hands over, in
    order, and the error it returns. *)
Class Imports : Type := {
  url_Parse : string -> result URL;
  ParseReference : string -> result Reference;
  chartutil_Write : Chart -> World -> (list Byte.byte * option error) * World
}.

(** The two methods of [*registry.Client] the getter uses; both may change
    the world (the cache, the registry session). *)
Record registry_Client : Type := {
  PullChart : Reference -> World -> option error * World;
  LoadChart : Reference -> World -> result Chart * World
}.

(** [type Getter struct { Client *Client }] *)
Record Getter : Type := { Client : registry_Client }.

(** [type RegistryGetter struct { g *registry.Getter }] *)
Record RegistryGetter : Type := { g : Getter }.

(** *** Observing the steps

    To speak about the order of the steps every call that leaves [Get] is
    recorded, with its outcome, in a trace that is threaded with the
    world. *)
Inductive Call : Type :=
| CallParse (href : string)
| CallParseReference (s : string)
| CallPullChart (ref : Reference)
| CallLoadChart (ref : Reference)
| CallWrite (c : Chart).

Record Step : Type := { call : Call; failure : option error }.

Record State : Type := { world : World; trace : list Step }.

Definition M (A : Type) : Type := State -> A * State.

Definition ret {A} (a : A) : M A := fun st => (a, st).

Definition bind {A B} (m : M A) (k : A -> M B) : M B :=
  fun st => let (a, st') := m st in k a st'.

Definition errOf {A} (r : result A) : option error :=
  match r with Ok _ => None | Err e => Some e end.

(** The state [st] after more steps [t] that left the world as [w]. *)
Definition extend (st : State) (w : World) (t : list Step) : State :=
  {| world := w; trace := (trace st ++ t)%list |}.

(** One step: run [f] on the world and append the call and its outcome to
    the trace. *)
Definition step {A} (c : Call) (outcome : A -> option error)
    (f : World -> A * World) : M A :=
  fun st =>
    let (a, w) := f (world st) in
    (a, extend st w [{| call := c; failure := outcome a |}]).

Local Notation "x <- c1 ;; c2" := (bind c1 (fun x => c2))
  (at level 61, c1 at next level, right associativity).

Context {imports : Imports}.

Definition call_Parse (href : string) : M (result URL) :=
  step (CallParse href) errOf (fun w => (url_Parse href, w)).

Definition call_ParseReference (s : string) : M (result Reference) :=
  step (CallParseReference s) errOf (fun w => (ParseReference s, w)).

Definition call_PullChart (c : registry_Client) (ref : Reference)
  : M (option error) :=
  step (CallPullChart ref) (fun e => e) (PullChart c ref).

Definition call_LoadChart (c : registry_Client) (ref : Reference)
  : M (result Chart) :=
  step (CallLoadChart ref) errOf (LoadChart c ref).

(** [chartutil.Write(c, buf)] with [buf] a [*bytes.Buffer]: the bytes
    written end up appended to the buffer. *)
Definition call_Write (c : Chart) (buf : Buffer) : M (Buffer * option error) :=
  step (CallWrite c) snd
    (fun w => let '((p, err), w') := chartutil_Write c w in
              ((Buffer_Write buf p, err), w')).

(** [func (g *Getter) Get(href string)], returning a [*bytes.Buffer] and an
    [error]. *)
Definition Get (g : Getter) (href : string) : M (option Buffer * option error) :=
  r <- call_Parse href ;;
  match r with
  | Err err => ret (None, Some err)
  | Ok u =>
      r <- call_ParseReference (Host u ++ Path u) ;;
      match r with
      | Err err => ret (None, Some err)
      | Ok ref =>
          (* first we'll pull the chart *)
          err <- call_PullChart (Client g) ref ;;
          match err with
          | Some err => ret (None, Some err)
          | None =>
              (* once we know we have the chart, we'll load up the chart *)
              r <- call_LoadChart (Client g) ref ;;
              match r with
              | Err err => ret (None, Some err)
              | Ok c =>
                  let buf := NewBuffer [] in
                  (* lastly, we'll write the tarred and gzipped contents
                     of the chart to our output buffer *)
                  r <- call_Write c buf ;;
                  let (buf, err) := r in
                  ret (Some buf, err)
              end
          end
      end
  end.

(** [func (g *Getter) Filename(u *url.URL, version string) string].
    [None] is the run-time panic of [parts[0]] on an empty slice. *)
Definition Filename (g : Getter) (u : URL) (version : string) : option string :=
  let parts := Split (Base (Path u)) ":" in
  match nth_error parts 0 with
  | Some p => Some (Sprintf_tgz p version)
  | None => None
  end.

(** [func NewRegistryGetter(c *registry.Client) *RegistryGetter] *)
Definition NewRegistryGetter (c : registry_Client) : RegistryGetter :=
  {| g := {| Client := c |} |}.

(** [func (rg *RegistryGetter) Get(href string, options ...Option)]: it
    returns [rg.g.Get(href)]. *)
Definition RegistryGetter_Get (rg : RegistryGetter) (href : string)
    (options : list Option) : M (option Buffer * option error) :=
  Get (g rg) href.

(** [func (rg *RegistryGetter) Filename(u *url.URL, version string) string] *)
Definition RegistryGetter_Filename (rg : RegistryGetter) (u : URL)
    (version : string) : option string :=
  Filename (g rg) u version.

End Model.

Arguments Ok {error A} v.
Arguments Err {error A} err.
Arguments Imports : clear implicits.
Arguments registry_Client : clear implicits.
Arguments Getter : clear implicits.
Arguments RegistryGetter : clear implicits.
Arguments State : clear implicits.
Arguments Step : clear implicits.
Arguments Call : clear implicits.

(** The artifact a client returns for a reference: [PullChart], then, when
    the pull succeeded, [LoadChart], as [Get] sequences them. *)
Definition fetch {error Reference Chart World : Type}
    (c : registry_Client error Reference Chart World) (ref : Reference)
    (w : World) : result (error := error) Chart * World :=
  let (e, w1) := PullChart c ref w in
  match e with
  | Some err => (Err err, w1)
  | None => LoadChart c ref w1
  end.

(** The kinds of step, in the order [Get] is written. *)
Inductive Kind : Type := KParse | KParseReference | KPullChart | KLoadChart | KWrite.

Definition kind {Reference Chart : Type} (c : Call Reference Chart) : Kind :=
  match c with
  | CallParse _ => KParse
  | CallParseReference _ => KParseReference
  | CallPullChart _ => KPullChart
  | CallLoadChart _ => KLoadChart
  | CallWrite _ => KWrite
  end.

Definition pipeline : list Kind :=
  [KParse; KParseReference; KPullChart; KLoadChart; KWrite].

(** The calls that reach a collaborator (the registry client or the archive
    codec), as opposed to the two pure parsing steps. *)
Definition isCollaboratorCall {Reference Chart : Type} (c : Call Reference Chart) : bool :=
  match c with
  | CallPullChart _ | CallLoadChart _ | CallWrite _ => true
  | _ => false
  end.

Definition collaboratorCalls {error Reference Chart : Type}
    (t : list (Step error Reference Chart)) : list (Step error Reference Chart) :=
  filter (fun s => isCollaboratorCall (call s)) t.

(** The steps one call of [Get] performs from the state [st]: what it adds
    to the trace. *)
Definition steps {error Reference Chart World : Type}
    {imports : Imports error Reference Chart World}
    (g : Getter error Reference Chart World) (href : string)
    (st : State error Reference Chart World) : list (Step error Reference Chart) :=
  skipn (length (trace st)) (trace (snd (Get g href st))).

(** The kinds of the steps follow the pipeline from its start. *)
Definition inPipelineOrder {error Reference Chart : Type}
    (t : list (Step error Reference Chart)) : Prop :=
  exists rest, (map (fun s => kind (call s)) t ++ rest)%list = pipeline.

(** A step is followed by another one only if it succeeded. *)
Definition stopsAtFailure {error Reference Chart : Type}
    (t : list (Step error Reference Chart)) : Prop :=
  forall before s after,
    t = (before ++ s :: after)%list -> after <> [] -> failure s = None.

(** Error transparency without partial result, as the specification words
    it: whichever step fails, [Get] returns that step's error and no
    buffer. *)
Definition NoPartialResult {error Reference Chart World : Type}
    {imports : Imports error Reference Chart World}
    (g : Getter error Reference Chart World) (href : string)
    (st : State error Reference Chart World) : Prop :=
  forall s e,
    In s (steps g href st) -> failure s = Some e ->
    fst (Get g href st) = (None, Some e).

(** What a call does when it is made on the world [w]: the error it returns
    and the world it leaves.  The two parsers leave the world alone. *)
Definition perform {error Reference Chart World : Type}
    {imports : Imports error Reference Chart World}
    (g : Getter error Reference Chart World) (c : Call Reference Chart)
    (w : World) : option error * World :=
  match c with
  | CallParse href => (errOf (url_Parse href), w)
  | CallParseReference s => (errOf (ParseReference s), w)
  | CallPullChart ref => PullChart (Client g) ref w
  | CallLoadChart ref =>
      let (r, w') := LoadChart (Client g) ref w in (errOf r, w')
  | CallWrite c =>
      let '((_, err), w') := chartutil_Write c w in (err, w')
  end.

(** The steps [t] were made, one after the other, from the world [w]: the
    outcome recorded with each call is the outcome of that call on the world
    the calls before it left. *)
Fixpoint performed {error Reference Chart World : Type}
    {imports : Imports error Reference Chart World}
    (g : Getter error Reference Chart World) (w : World)
    (t : list (Step error Reference Chart)) : Prop :=
  match t with
  | [] => True
  | s :: t' =>
      failure s = fst (perform g (call s) w)
      /\ performed g (snd (perform g (call s) w)) t'
  end.

(** The world that making the calls of [t] in turn, each once, leaves. *)
Fixpoint replay {error Reference Chart World : Type}
    {imports : Imports error Reference Chart World}
    (g : Getter error Reference Chart World) (w : World)
    (t : list (Step error Reference Chart)) : World :=
  match t with
  | [] => w
  | s :: t' => replay g (snd (perform g (call s) w)) t'
  end.

(** The buffer [Get] returns after a last step [c] made on the world [w]:
    the bytes the codec wrote when the step is the write, none before. *)
Definition bufferAfter {error Reference Chart World : Type}
    {imports : Imports error Reference Chart World}
    (c : Call Reference Chart) (w : World) : option Buffer :=
  match c with
  | CallWrite ch => Some {| contents := fst (fst (chartutil_Write ch w)) |}
  | _ => None
  end.

(** ** Vocabulary of the specification, on strings *)

(** [s] contains the byte [c]. *)
Fixpoint hasByte (c : ascii) (s : string) : bool :=
  match s with
  | EmptyString => false
  | String b r => Ascii.eqb b c || hasByte c r
  end.

(** The portion of [s] before the first [c] (all of [s] when there is
    none). *)
Fixpoint beforeFirst (c : ascii) (s : string) : string :=
  match s with
  | EmptyString => EmptyString
  | String b r => if Ascii.eqb b c then EmptyString else String b (beforeFirst c r)
  end.

(** The portion of [s] after the first [c] (empty when there is none). *)
Fixpoint afterFirst (c : ascii) (s : string) : string :=
  match s with
  | EmptyString => EmptyString
  | String b r => if Ascii.eqb b c then r else afterFirst c r
  end.

(** The portion of [s] after the last [c] (all of [s] when there is none). *)
Fixpoint afterLast (c : ascii) (s : string) : string :=
  match s with
  | EmptyString => EmptyString
  | String b r =>
      if hasByte c r then afterLast c r
      else if Ascii.eqb b c then r else s
  end.

(** The portion of [s] up to and including the last [c] (empty when there is
    none). *)
Fixpoint uptoLast (c : ascii) (s : string) : string :=
  match s with
  | EmptyString => EmptyString
  | String b r =>
      if hasByte c r then String b (uptoLast c r)
      else if Ascii.eqb b c then String b EmptyString else EmptyString
  end.

(** [s] without its trailing ['/'] bytes. *)
Fixpoint trimSlashes (s : string) : string :=
  match s with
  | EmptyString => EmptyString
  | String b r =>
      match trimSlashes r with
      | EmptyString => if Ascii.eqb b "/" then EmptyString else String b EmptyString
      | r' => String b r'
      end
  end.

(** The last element of a path: trailing slashes are dropped and the text
    after the last remaining slash is taken; the empty path has the element
    ["."] and a path of slashes only has the element ["/"]. *)
Definition lastElement (path : string) : string :=
  match path with
  | EmptyString => "."
  | _ =>
      match afterLast "/" (trimSlashes path) with
      | EmptyString => "/"
      | e => e
      end
  end.

(** ** The reference resolver *)

Module Resolver.

(** Modelled from the spec: the reference resolver [Resolve] of section 4.1.
    The source files hold only its callers, the tests that invoke it as
    [g.URL(u, version)] and [g.GetWithDetails(u, version)] on a [*url.URL]
    that parsed; its body is missing.  The locator is therefore taken in
    its parsed form.  A [Reference] has the attributes of section 3: host,
    repository path and tag. *)
Record Reference : Type := {
  host : string;
  repositoryPath : string;
  tag : string
}.

(** Modelled from the spec: the error kinds of section 7 that belong to
    resolution. *)
Inductive Error : Type :=
| MalformedLocator
| MalformedReference
| MissingVersion.

(** Modelled from the spec: rule 1 of section 4.1, the tag embedded in a
    path.  It is present when the path has a [':'] after its last ['/'];
    the repository path is what precedes that [':'] and the tag what
    follows it. *)
Definition existingTag (path : string) : option string :=
  let segment := afterLast "/" path in
  if hasByte ":" segment then Some (afterFirst ":" segment) else None.

(** Modelled from the spec: the repository path of a tagged path, that is
    the path up to the [':'] of its last segment. *)
Definition untagged (path : string) : string :=
  uptoLast "/" path ++ beforeFirst ":" (afterLast "/" path).

(** Modelled from the spec: rules 2 to 4 of section 4.1, one decision with
    three branches (tag present, version present, neither). *)
Definition Resolve (locator : URL) (explicitVersion : string)
  : Reference + Error :=
  match existingTag (Path locator) with
  | Some t =>
      inl {| host := Host locator;
             repositoryPath := untagged (Path locator);
             tag := t |}
  | None =>
      if String.eqb explicitVersion "" then inr MissingVersion
      else inl {| host := Host locator;
                  repositoryPath := Path locator;
                  tag := explicitVersion |}
  end.

(** Modelled from the spec: a reference written back as a URL of the
    locator's scheme, the string the tests compare [g.URL(u, version)]
    with. *)
Definition render (scheme : string) (r : Reference) : string :=
  scheme ++ "://" ++ host r ++ repositoryPath r ++ ":" ++ tag r.

(** Modelled from the spec: [g.URL(u, version)] of the tests, resolution
    followed by rendering. *)
Definition ResolveURL (locator : URL) (explicitVersion : string)
  : string + Error :=
  match Resolve locator explicitVersion with
  | inl r => inl (render (Scheme locator) r)
  | inr e => inr e
  end.

End Resolver.

(** ** A small registry to run the getter on

    Concrete collaborators on which the general statements are instantiated:
    errors are messages, a reference is the string it was parsed from, a
    chart is its archive text.  The world holds the charts of the remote
    registry and the local cache of the client.  [Sample.parseURL] splits the
    URLs of the shape [scheme://userinfo@host/path?query#fragment]; it stands
    in for [url.Parse] on such inputs only. *)

Module Sample.

Definition error : Type := string.
Definition Reference : Type := string.
Definition Chart : Type := string.

Record World : Type := {
  remote : list (string * string);
  cache : list (string * string)
}.

Fixpoint lookup (k : string) (l : list (string * string)) : option string :=
  match l with
  | [] => None
  | (k', v) :: l' => if String.eqb k k' then Some v else lookup k l'
  end.

Definition parseURL (href : string) : result (error := error) URL :=
  if hasByte " " href then Err "invalid character in URL"
  else
    let fragment := afterFirst "#" href in
    let rest := beforeFirst "#" href in
    let query := afterFirst "?" rest in
    let rest := beforeFirst "?" rest in
    if hasByte ":" rest && prefix "//" (afterFirst ":" rest) then
      let scheme := beforeFirst ":" rest in
      let rest := sliceFrom 2 (afterFirst ":" rest) in
      let authority := beforeFirst "/" rest in
      let path := sliceFrom (len authority) rest in
      let user :=
        if hasByte "@" authority
        then Some {| username := beforeFirst "@" authority;
                     password := ""; passwordSet := false |}
        else None in
      let host :=
        if hasByte "@" authority then afterFirst "@" authority else authority in
      Ok {| Scheme := scheme; Opaque := ""; User := user; Host := host;
            Path := path; RawPath := ""; ForceQuery := false;
            RawQuery := query; Fragment := fragment |}
    else
      Ok {| Scheme := ""; Opaque := ""; User := None; Host := "";
            Path := rest; RawPath := ""; ForceQuery := false;
            RawQuery := query; Fragment := fragment |}.

Definition parseRef (s : string) : result (error := error) Reference :=
  if hasByte "/" s then Ok s else Err "invalid reference".

Definition write (c : Chart) (w : World)
  : (list Byte.byte * option error) * World :=
  ((list_byte_of_string c, None), w).

(** A codec that fails after it wrote the first two bytes. *)
Definition writeBroken (c : Chart) (w : World)
  : (list Byte.byte * option error) * World :=
  ((list_byte_of_string (sliceTo 2 c), Some "short write"), w).

Definition imports : Imports error Reference Chart World :=
  {| url_Parse := parseURL;
     ParseReference := parseRef;
     chartutil_Write := write |}.

Definition importsBroken : Imports error Reference Chart World :=
  {| url_Parse := parseURL;
     ParseReference := parseRef;
     chartutil_Write := writeBroken |}.

Definition pull (ref : Reference) (w : World) : option error * World :=
  match lookup ref (remote w) with
  | Some c => (None, {| remote := remote w; cache := (ref, c) :: cache w |})
  | None => (Some "not found", w)
  end.

Definition load (ref : Reference) (w : World)
  : result (error := error) Chart * World :=
  match lookup ref (cache w) with
  | Some c => (Ok c, w)
  | None => (Err "chart not in cache", w)
  end.

Definition client : registry_Client error Reference Chart World :=
  {| PullChart := pull; LoadChart := load |}.

Definition getter : Getter error Reference Chart World := {| Client := client |}.

Definition charts : list (string * string) :=
  [("registry/testrepo/testchart:1.2.3", "testchart-1.2.3");
   ("registry/testrepo/testchart:0.1.0", "testchart-0.1.0")].

Definition start : State error Reference Chart World :=
  {| world := {| remote := charts; cache := [] |}; trace := [] |}.

Definition url (scheme host path : string) : URL :=
  {| Scheme := scheme; Opaque := ""; User := None; Host := host;
     Path := path; RawPath := ""; ForceQuery := false;
     RawQuery := ""; Fragment := "" |}.

End Sample.

(** ** [getter.Provider] *)

Section ProviderModel.

Context {error Reference Chart Option World : Type}.

(** [getter.Provider], as the composite literal in
    [NewRegistryGetterProvider] shows it: the schemes served and the
    constructor [New], a [func(options ...Option) (Getter, error)].  The
    [Getter] interface value that comes back holds a [*RegistryGetter]. *)
Record Provider : Type := {
  Schemes : list string;
  New : list Option -> RegistryGetter error Reference Chart World * option error
}.

(** [func NewRegistryGetterProvider(c *registry.Client) Provider] *)
Definition NewRegistryGetterProvider
    (c : registry_Client error Reference Chart World) : Provider :=
  {| Schemes := ["oci"];
     New := fun options => (NewRegistryGetter c, None) |}.

End ProviderModel.

Arguments Provider : clear implicits.

(** ** Vocabulary of the further properties *)

(** The pieces written one after the other with [sep] between them. *)
Fixpoint joinWith (sep : ascii) (pieces : list string) : string :=
  match pieces with
  | [] => EmptyString
  | p :: rest =>
      match rest with
      | [] => p
      | _ :: _ => p ++ String sep (joinWith sep rest)
      end
  end.

(** [s] is made of slashes only. *)
Fixpoint onlySlashes (s : string) : bool :=
  match s with
  | EmptyString => true
  | String b r => Ascii.eqb b "/" && onlySlashes r
  end.

(** The URL [u] with another path. *)
Definition withPath (u : URL) (path : string) : URL :=
  {| Scheme := Scheme u; Opaque := Opaque u; User := User u; Host := Host u;
     Path := path; RawPath := RawPath u; ForceQuery := ForceQuery u;
     RawQuery := RawQuery u; Fragment := Fragment u |}.

(** How often a kind of step occurs among steps. *)
Definition occurrences {error Reference Chart : Type} (k : Kind)
    (t : list (Step error Reference Chart)) : nat :=
  length (filter (fun s => match kind (call s), k with
                           | KParse, KParse | KParseReference, KParseReference
                           | KPullChart, KPullChart | KLoadChart, KLoadChart
                           | KWrite, KWrite => true
                           | _, _ => false
                           end) t).

(* ================================================================== *)
(** * Part II: properties *)
(* ================================================================== *)

(** ** Strings *)

Section StringFacts.

Variable c : ascii.

Lemma IndexByte_None_hasByte (s : string) :
  IndexByte s c = None <-> hasByte c s = false.
Proof.
  induction s as [|b r IH]; simpl; [tauto|].
  destruct (Ascii.eqb b c); simpl; [split; discriminate|].
  destruct (IndexByte r c); simpl; split; intros H;
    try discriminate; try (apply IH; assumption).
  apply IH in H. discriminate.
Qed.

Lemma CountString_hasByte (s : string) :
  hasByte c s = false -> CountString s c = 0.
Proof.
  induction s as [|b r IH]; simpl; [reflexivity|].
  destruct (Ascii.eqb b c); simpl; [discriminate|exact IH].
Qed.

Lemma CountString_le_len (s : string) : CountString s c <= len s.
Proof.
  induction s as [|b r IH]; simpl; [lia|].
  unfold len in *. destruct (Ascii.eqb b c); simpl; lia.
Qed.

Lemma CountString_pos (s : string) (m : nat) :
  IndexByte s c = Some m -> 0 < CountString s c.
Proof.
  revert m. induction s as [|b r IH]; simpl; [discriminate|].
  intros m. destruct (Ascii.eqb b c); simpl; [lia|].
  destruct (IndexByte r c) as [k|]; simpl; [|discriminate].
  intros _. exact (IH k eq_refl).
Qed.

Lemma sliceTo_IndexByte (s : string) (m : nat) :
  IndexByte s c = Some m -> sliceTo m s = beforeFirst c s.
Proof.
  revert m. induction s as [|b r IH]; simpl; [discriminate|].
  intros m. destruct (Ascii.eqb b c); [intros [= <-]; reflexivity|].
  destruct (IndexByte r c) as [k|]; simpl; [|discriminate].
  intros [= <-]. simpl. f_equal. apply IH. reflexivity.
Qed.

Lemma sliceFrom_IndexByte (s : string) (m : nat) :
  IndexByte s c = Some m -> sliceFrom (m + 1) s = afterFirst c s.
Proof.
  revert m. induction s as [|b r IH]; simpl; [discriminate|].
  intros m. destruct (Ascii.eqb b c); [intros [= <-]; reflexivity|].
  destruct (IndexByte r c) as [k|]; simpl; [|discriminate].
  intros [= <-]. simpl. apply IH. reflexivity.
Qed.

Lemma beforeFirst_absent (s : string) :
  hasByte c s = false -> beforeFirst c s = s.
Proof.
  induction s as [|b r IH]; simpl; [reflexivity|].
  destruct (Ascii.eqb b c); simpl; [discriminate|].
  intros H. f_equal. exact (IH H).
Qed.

Lemma beforeFirst_no_byte (s : string) : hasByte c (beforeFirst c s) = false.
Proof.
  induction s as [|b r IH]; simpl; [reflexivity|].
  destruct (Ascii.eqb b c) eqn:E; simpl; [reflexivity|].
  rewrite E. exact IH.
Qed.

(** The slice [strings.Split] returns is never empty, and its first element
    is the text before the first separator. *)
Lemma Split_head (s : string) :
  exists rest, Split s c = beforeFirst c s :: rest.
Proof.
  unfold Split.
  assert (Hle := CountString_le_len s).
  destruct (Nat.ltb_spec (len s + 1) (CountString s c + 1)) as [Hlt|_]; [lia|].
  replace (CountString s c + 1 - 1) with (CountString s c) by lia.
  destruct (IndexByte s c) as [m|] eqn:E.
  - pose proof (CountString_pos s m E) as Hpos.
    destruct (CountString s c) as [|k]; [lia|].
    simpl. rewrite E. rewrite (sliceTo_IndexByte s m E). eauto.
  - apply IndexByte_None_hasByte in E.
    rewrite (CountString_hasByte s E). simpl.
    rewrite (beforeFirst_absent s E). eauto.
Qed.

Lemma append_assoc (s1 s2 s3 : string) : (s1 ++ s2) ++ s3 = s1 ++ (s2 ++ s3).
Proof. induction s1 as [|b r IH]; simpl; [reflexivity|f_equal; exact IH]. Qed.

Lemma uptoLast_afterLast (s : string) : uptoLast c s ++ afterLast c s = s.
Proof.
  induction s as [|b r IH]; simpl; [reflexivity|].
  destruct (hasByte c r); simpl; [f_equal; exact IH|].
  destruct (Ascii.eqb b c); reflexivity.
Qed.

Lemma afterLast_no_byte (s : string) : hasByte c (afterLast c s) = false.
Proof.
  induction s as [|b r IH]; simpl; [reflexivity|].
  destruct (hasByte c r) eqn:E; [exact IH|].
  destruct (Ascii.eqb b c) eqn:Eb; [exact E|].
  simpl. rewrite Eb, E. reflexivity.
Qed.

End StringFacts.

(** ** [filepath.Base] computes the last element *)

Lemma stripTrailing_cons (a : ascii) (r : string) (n : nat) :
  stripTrailing (String a r) (S n) =
  match stripTrailing r n with
  | 0 => if IsPathSeparator a then 0 else 1
  | S k => S (S k)
  end.
Proof.
  induction n as [|n IH].
  - simpl. destruct (IsPathSeparator a); reflexivity.
  - cbn [stripTrailing]. cbn [String.get]. change (Nat.eqb (S n) 0) with false.
    cbv iota. replace (S n - 1) with n by lia.
    destruct (String.get n r) as [b|]; [|reflexivity].
    destruct (IsPathSeparator b); [exact IH|reflexivity].
Qed.

Lemma sliceTo_stripTrailing (s : string) :
  sliceTo (stripTrailing s (len s)) s = trimSlashes s.
Proof.
  induction s as [|a r IH]; [reflexivity|].
  change (len (String a r)) with (S (len r)).
  rewrite stripTrailing_cons. cbn [trimSlashes]. rewrite <- IH.
  destruct (stripTrailing r (len r)) as [|k] eqn:E.
  - destruct r; unfold IsPathSeparator; simpl;
      destruct (Ascii.eqb a "/"); reflexivity.
  - destruct r as [|b r']; [discriminate E|]. reflexivity.
Qed.

Lemma lastSeparator_cons (a : ascii) (r : string) (n : nat) :
  lastSeparator (String a r) (S n) =
  match lastSeparator r n with
  | Some i => Some (S i)
  | None => if IsPathSeparator a then Some 0 else None
  end.
Proof.
  induction n as [|n IH].
  - simpl. destruct (IsPathSeparator a); reflexivity.
  - cbn [lastSeparator]. cbn [String.get]. change (Nat.eqb (S n) 0) with false.
    cbv iota. replace (S n - 1) with n by lia.
    destruct (String.get n r) as [b|]; [|exact IH].
    destruct (IsPathSeparator b); [reflexivity|exact IH].
Qed.

Lemma lastSeparator_None (s : string) :
  lastSeparator s (len s) = None <-> hasByte "/" s = false.
Proof.
  induction s as [|a r IH]; [simpl; tauto|].
  change (len (String a r)) with (S (len r)).
  rewrite lastSeparator_cons. cbn [hasByte]. unfold IsPathSeparator.
  destruct (lastSeparator r (len r)) as [i|].
  - split; [discriminate|]. intros H. apply orb_false_elim in H.
    destruct H as [_ H]. apply IH in H. discriminate.
  - destruct (Ascii.eqb a "/"); simpl; [split; discriminate|].
    split; intros _; [apply IH|]; reflexivity.
Qed.

Lemma sliceFrom_lastSeparator (s : string) :
  match lastSeparator s (len s) with
  | Some i => sliceFrom (i + 1) s
  | None => s
  end = afterLast "/" s.
Proof.
  induction s as [|a r IH]; [reflexivity|].
  change (len (String a r)) with (S (len r)).
  rewrite lastSeparator_cons. cbn [afterLast]. unfold IsPathSeparator.
  destruct (lastSeparator r (len r)) as [i|] eqn:E.
  - destruct (hasByte "/" r) eqn:Eh.
    + exact IH.
    + apply lastSeparator_None in Eh. congruence.
  - rewrite (proj1 (lastSeparator_None r) E).
    destruct (Ascii.eqb a "/"); reflexivity.
Qed.

(** The two loops of [filepath.Base] compute the last element of the path. *)
Lemma Base_lastElement (path : string) : Base path = lastElement path.
Proof.
  unfold Base, lastElement.
  destruct path as [|a r]; [reflexivity|].
  change (String.eqb (String a r) "") with false. cbv iota.
  rewrite sliceTo_stripTrailing, sliceFrom_lastSeparator.
  destruct (afterLast "/" (trimSlashes (String a r))); reflexivity.
Qed.

(** On a path that is not empty and does not end in a slash the last element
    is the text after the last slash. *)
Lemma trimSlashes_id (s : string) :
  (forall r, s <> r ++ "/") -> trimSlashes s = s.
Proof.
  induction s as [|a r IH]; [reflexivity|].
  intros H. cbn [trimSlashes]. rewrite IH.
  - destruct r as [|b r']; [|reflexivity].
    destruct (Ascii.eqb_spec a "/") as [->|]; [|reflexivity].
    exfalso. apply (H ""). reflexivity.
  - intros q ->. apply (H (String a q)). reflexivity.
Qed.

Lemma afterLast_nonempty (c : ascii) (s : string) :
  s <> "" -> (forall r, s <> r ++ String c "") -> afterLast c s <> "".
Proof.
  induction s as [|a r IH]; [congruence|].
  intros _ H. cbn [afterLast].
  destruct (hasByte c r) eqn:E.
  - apply IH.
    + destruct r; [discriminate E|discriminate].
    + intros q ->. apply (H (String a q)). reflexivity.
  - destruct (Ascii.eqb_spec a c) as [->|]; [|discriminate].
    intros ->. apply (H ""). reflexivity.
Qed.

Lemma lastElement_plain (path : string) :
  path <> "" -> (forall r, path <> r ++ "/") ->
  lastElement path = afterLast "/" path.
Proof.
  intros Hne Hsl. unfold lastElement.
  destruct path as [|a r]; [congruence|].
  rewrite (trimSlashes_id _ Hsl).
  pose proof (afterLast_nonempty "/" _ Hne Hsl) as H.
  destruct (afterLast "/" (String a r)); [congruence|reflexivity].
Qed.

(** ** [Filename] *)

Section FilenameFacts.

Context {error Reference Chart World : Type}.
Implicit Types (g : Getter error Reference Chart World) (u : URL).

(** C8: [Filename] has no error path.  For every URL, whatever its path
    (empty, without [':'], ...), and every version, the [':']-split of the
    base of the path has a first element, so [parts[0]] is in bounds and
    [Filename] returns a string. *)
Theorem Filename_total g u (version : string) :
  0 < length (Split (Base (Path u)) ":") /\
  exists name, Filename g u version = Some name.
Proof.
  unfold Filename.
  destruct (Split_head ":" (Base (Path u))) as [rest ->].
  split; [simpl; lia|]. simpl. eauto.
Qed.

(** C6: for every URL and every version string, [Filename] returns the
    last element of the URL's path cut at its first [':'] (so without any
    tag), then ['-'], then the version argument as it was passed, then
    [".tgz"].  The last element is the text after the last slash whenever
    the path is not empty and does not end in a slash. *)
Theorem Filename_format g u (version : string) :
  Filename g u version =
    Some (beforeFirst ":" (lastElement (Path u)) ++ "-" ++ version ++ ".tgz")
  /\ hasByte ":" (beforeFirst ":" (lastElement (Path u))) = false
  /\ (Path u <> "" -> (forall r, Path u <> r ++ "/") ->
      lastElement (Path u) = afterLast "/" (Path u)).
Proof.
  split; [|split; [apply beforeFirst_no_byte|apply lastElement_plain]].
  unfold Filename.
  destruct (Split_head ":" (Base (Path u))) as [rest ->].
  simpl. rewrite Base_lastElement. reflexivity.
Qed.

(** The wrapper hands its arguments on unchanged. *)
Lemma RegistryGetter_Filename_eq (rg : RegistryGetter error Reference Chart World)
    u (version : string) :
  RegistryGetter_Filename rg u version = Filename (g rg) u version.
Proof. reflexivity. Qed.

End FilenameFacts.

(** The example of the specification: the tag [latest] does not reach the
    file name, the requested version does. *)
Example Filename_chart_latest :
  Filename Sample.getter (Sample.url "oci" "registry" "/testrepo/chart:latest") "0.1.0"
  = Some "chart-0.1.0.tgz".
Proof. reflexivity. Qed.

Example Filename_empty_path :
  Filename Sample.getter (Sample.url "oci" "registry" "") "0.1.0"
  = Some ".-0.1.0.tgz".
Proof. reflexivity. Qed.

(** ** [Get] *)

Section GetFacts.

Context {error Reference Chart World : Type}.
Context {imports : Imports error Reference Chart World}.
Implicit Types (g : Getter error Reference Chart World).
Implicit Types (st : State error Reference Chart World).
Implicit Types (t : list (Step error Reference Chart)).

Lemma extend_extend st w t w' t' :
  extend (extend st w t) w' t' = extend st w' (t ++ t')%list.
Proof. unfold extend. simpl. rewrite app_assoc. reflexivity. Qed.

Lemma skipn_extend st w t :
  skipn (length (trace st)) (trace (extend st w t)) = t.
Proof.
  unfold extend. simpl. rewrite skipn_app, skipn_all, Nat.sub_diag.
  reflexivity.
Qed.

Let did (c : Call Reference Chart) (e : option error) : Step error Reference Chart :=
  {| call := c; failure := e |}.

(** One call of [Get], run symbolically: the result, the final world and
    the steps added to the trace, by the outcome of each step in turn. *)
Lemma Get_run g href st :
  Get g href st =
  match url_Parse href with
  | Err e => ((None, Some e), extend st (world st) [did (CallParse href) (Some e)])
  | Ok u =>
      let s := (Host u ++ Path u)%string in
      match ParseReference s with
      | Err e =>
          ((None, Some e),
           extend st (world st)
             [did (CallParse href) None; did (CallParseReference s) (Some e)])
      | Ok ref =>
          match PullChart (Client g) ref (world st) with
          | (Some e, w1) =>
              ((None, Some e),
               extend st w1
                 [did (CallParse href) None; did (CallParseReference s) None;
                  did (CallPullChart ref) (Some e)])
          | (None, w1) =>
              match LoadChart (Client g) ref w1 with
              | (Err e, w2) =>
                  ((None, Some e),
                   extend st w2
                     [did (CallParse href) None; did (CallParseReference s) None;
                      did (CallPullChart ref) None;
                      did (CallLoadChart ref) (Some e)])
              | (Ok c, w2) =>
                  let '((p, err), w3) := chartutil_Write c w2 in
                  ((Some (Buffer_Write (NewBuffer []) p), err),
                   extend st w3
                     [did (CallParse href) None; did (CallParseReference s) None;
                      did (CallPullChart ref) None; did (CallLoadChart ref) None;
                      did (CallWrite c) err])
              end
          end
      end
  end.
Proof.
  unfold Get, bind, ret, call_Parse, call_ParseReference, call_PullChart,
    call_LoadChart, call_Write, step, did.
  cbn [world extend trace].
  destruct (url_Parse href) as [u|e]; cbn [errOf]; [|reflexivity].
  destruct (ParseReference (Host u ++ Path u)) as [ref|e]; cbn [errOf world extend];
    [|rewrite extend_extend; reflexivity].
  destruct (PullChart (Client g) ref (world st)) as [[e|] w1]; cbn [world extend];
    [rewrite !extend_extend; reflexivity|].
  destruct (LoadChart (Client g) ref w1) as [[c|e] w2]; cbn [errOf world extend];
    [|rewrite !extend_extend; reflexivity].
  destruct (chartutil_Write c w2) as [[p err] w3]; cbn [snd world extend].
  rewrite !extend_extend. reflexivity.
Qed.

(** Case analysis over one run: every stage of the pipeline either fails or
    hands its value to the next one. *)
Ltac run_cases g href st :=
  unfold NoPartialResult, steps; rewrite ?Get_run; cbv zeta;
  let u := fresh "u" in let ref := fresh "ref" in let e := fresh "e" in
  let c := fresh "c" in let p := fresh "p" in let err := fresh "err" in
  let w1 := fresh "w1" in let w2 := fresh "w2" in let w3 := fresh "w3" in
  let Eu := fresh "Eu" in let Er := fresh "Er" in let Ep := fresh "Ep" in
  let El := fresh "El" in let Ew := fresh "Ew" in
  destruct (url_Parse href) as [u|e] eqn:Eu;
  [ destruct (ParseReference (Host u ++ Path u)) as [ref|e] eqn:Er;
    [ destruct (PullChart (Client g) ref (world st)) as [[e|] w1] eqn:Ep;
      [ | destruct (LoadChart (Client g) ref w1) as [[c|e] w2] eqn:El;
          [ destruct (chartutil_Write c w2) as [[p err] w3] eqn:Ew | ] ]
    | ]
  | ];
  cbn [fst snd]; rewrite ?skipn_extend.

Lemma stopsAtFailure_snoc t (s : Step error Reference Chart) :
  Forall (fun s' => failure s' = None) t -> stopsAtFailure (t ++ [s]).
Proof.
  unfold stopsAtFailure. induction t as [|a t IH]; intros Hall before x after E Hne.
  - destruct before as [|b before]; simpl in E.
    + injection E as _ E. congruence.
    + injection E as _ E. destruct before; discriminate E.
  - inversion Hall as [|? ? Ha Ht]; subst.
    destruct before as [|b before]; simpl in E.
    + injection E as E _. congruence.
    + injection E as _ E. exact (IH Ht before x after E Hne).
Qed.

Lemma fetch_run g ref st w1 w2 (c : Chart) :
  PullChart (Client g) ref (world st) = (None, w1) ->
  LoadChart (Client g) ref w1 = (Ok c, w2) ->
  fetch (Client g) ref (world st) = (Ok c, w2).
Proof. intros Hp Hl. unfold fetch. rewrite Hp. exact Hl. Qed.

(** The order of the steps, read on the trace. *)
Lemma Get_trace_order g href st :
  let t := steps g href st in
  trace (snd (Get g href st)) = (trace st ++ t)%list
  /\ t <> []
  /\ inPipelineOrder t
  /\ stopsAtFailure t
  /\ ((forall s, In s t -> failure s = None) ->
      map (fun s => kind (call s)) t = pipeline)
  /\ (forall s, In s t ->
      match call s with
      | CallParse h => h = href
      | CallParseReference x =>
          exists u, url_Parse href = Ok u /\ x = (Host u ++ Path u)%string
      | CallPullChart ref | CallLoadChart ref =>
          exists u, url_Parse href = Ok u
                    /\ ParseReference (Host u ++ Path u) = Ok ref
      | CallWrite c =>
          exists u ref, url_Parse href = Ok u
                        /\ ParseReference (Host u ++ Path u) = Ok ref
                        /\ fst (fetch (Client g) ref (world st)) = Ok c
      end).
Proof.
  cbv zeta. run_cases g href st.
  all: (split; [reflexivity|]).
  all: (split; [discriminate|]).
  all: (split; [eexists; reflexivity|]).
  all: (split;
        [ match goal with
          | |- stopsAtFailure [?a] => apply (stopsAtFailure_snoc [] a)
          | |- stopsAtFailure [?a; ?b] => apply (stopsAtFailure_snoc [a] b)
          | |- stopsAtFailure [?a; ?b; ?c] => apply (stopsAtFailure_snoc [a; b] c)
          | |- stopsAtFailure [?a; ?b; ?c; ?d] =>
              apply (stopsAtFailure_snoc [a; b; c] d)
          | |- stopsAtFailure [?a; ?b; ?c; ?d; ?e] =>
              apply (stopsAtFailure_snoc [a; b; c; d] e)
          end; repeat constructor | ]).
  all: (split;
        [ intros Hall;
          first
            [ reflexivity
            | discriminate (Hall _ (or_introl eq_refl))
            | discriminate (Hall _ (or_intror (or_introl eq_refl)))
            | discriminate (Hall _ (or_intror (or_intror (or_introl eq_refl))))
            | discriminate
                (Hall _ (or_intror (or_intror (or_intror (or_introl eq_refl))))) ]
        | intros s Hin; simpl in Hin;
          repeat (destruct Hin as [<-|Hin]); try contradiction; simpl; eauto ]).
  all: eexists; eexists; repeat split; eauto;
    erewrite fetch_run by eassumption; reflexivity.
Qed.

Ltac settle :=
  unfold did;
  repeat (cbn [performed replay perform bufferAfter call failure fst snd errOf
               app];
          try match goal with
              | H : ?l = _ |- context [?l] => rewrite H
              end);
  repeat split.

(** The steps on the trace are the calls [Get] makes: each outcome recorded
    is the one the call had on the world reached so far. *)
Lemma Get_performed g href st : performed g (world st) (steps g href st).
Proof. run_cases g href st; settle. Qed.

(** [Get] leaves the world that its steps, made once each and in order,
    leave. *)
Lemma Get_world_replay g href st :
  world (snd (Get g href st)) = replay g (world st) (steps g href st).
Proof. run_cases g href st; settle. Qed.

(** The result of [Get] is read off its last step: the error is the outcome
    of that step, the buffer is nil unless the step is the write. *)
Lemma Get_result_last g href st :
  exists front s,
    steps g href st = (front ++ [s])%list
    /\ snd (fst (Get g href st)) = failure s
    /\ fst (fst (Get g href st))
       = bufferAfter (call s) (replay g (world st) front).
Proof.
  run_cases g href st.
  all: match goal with
       | |- exists front s, [?a] = _ /\ _ => exists [], a
       | |- exists front s, [?a; ?b] = _ /\ _ => exists [a], b
       | |- exists front s, [?a; ?b; ?c] = _ /\ _ => exists [a; b], c
       | |- exists front s, [?a; ?b; ?c; ?d] = _ /\ _ => exists [a; b; c], d
       | |- exists front s, [?a; ?b; ?c; ?d; ?e] = _ /\ _ =>
           exists [a; b; c; d], e
       end.
  all: settle.
Qed.

(** C5: [Get] performs its steps in a fixed order, each one only after the
    one before it succeeded: it parses the href, builds the reference from
    the host and path, calls [PullChart], then [LoadChart], on that
    reference, then writes the chart loaded to the output buffer.  After a
    step that fails no further step is performed, and when no step fails
    all five are.  The steps are the calls really made: every outcome on
    the trace is the outcome of the call on the world the earlier calls
    left, the final world is the one these calls leave, and what [Get]
    returns is the outcome of the last of them, with the bytes the codec
    wrote when that step is the write. *)
Theorem Get_step_order g href st :
  let t := steps g href st in
  trace (snd (Get g href st)) = (trace st ++ t)%list
  /\ t <> []
  /\ inPipelineOrder t
  /\ stopsAtFailure t
  /\ ((forall s, In s t -> failure s = None) ->
      map (fun s => kind (call s)) t = pipeline)
  /\ (forall s, In s t ->
      match call s with
      | CallParse h => h = href
      | CallParseReference x =>
          exists u, url_Parse href = Ok u /\ x = (Host u ++ Path u)%string
      | CallPullChart ref | CallLoadChart ref =>
          exists u, url_Parse href = Ok u
                    /\ ParseReference (Host u ++ Path u) = Ok ref
      | CallWrite c =>
          exists u ref, url_Parse href = Ok u
                        /\ ParseReference (Host u ++ Path u) = Ok ref
                        /\ fst (fetch (Client g) ref (world st)) = Ok c
      end)
  /\ performed g (world st) t
  /\ world (snd (Get g href st)) = replay g (world st) t
  /\ (exists front s,
        t = (front ++ [s])%list
        /\ snd (fst (Get g href st)) = failure s
        /\ fst (fst (Get g href st))
           = bufferAfter (call s) (replay g (world st) front)).
Proof.
  cbv zeta.
  destruct (Get_trace_order g href st) as (H1 & H2 & H3 & H4 & H5 & H6).
  repeat (split; [assumption|]).
  split; [apply Get_performed|].
  split; [apply Get_world_replay|apply Get_result_last].
Qed.

(** C4, amended: whichever step fails, [Get] returns the error of that
    step unchanged.  When the step is the parse, the reference parse,
    [PullChart] or [LoadChart], no buffer is returned.  When it is the
    final write, the error comes with the buffer that was being written
    to, which holds the bytes the codec wrote before it failed. *)
Theorem Get_error_transparent g href st (s : Step error Reference Chart) (e : error) :
  In s (steps g href st) -> failure s = Some e ->
  snd (fst (Get g href st)) = Some e
  /\ (kind (call s) <> KWrite -> fst (fst (Get g href st)) = None)
  /\ (kind (call s) = KWrite ->
      exists u ref c w p w',
        url_Parse href = Ok u
        /\ ParseReference (Host u ++ Path u) = Ok ref
        /\ fetch (Client g) ref (world st) = (Ok c, w)
        /\ call s = CallWrite c
        /\ chartutil_Write c w = ((p, Some e), w')
        /\ fst (fst (Get g href st)) = Some {| contents := p |}).
Proof.
  run_cases g href st.
  all: intros Hin Hf; simpl in Hin.
  all: repeat (destruct Hin as [<-|Hin]); try contradiction; simpl in Hf;
    try discriminate Hf.
  all: first [injection Hf as -> | subst].
  all: split; [reflexivity|].
  all: split; [simpl; intros; congruence|].
  all: simpl; intros Hk; try discriminate Hk.
  do 6 eexists. repeat split; eauto using fetch_run.
Qed.

(** Conversely [Get] invents no error: the error it returns is the failure
    of the last step performed, and without a failing step it returns a
    buffer and a nil error. *)
Lemma Get_error_from_step g href st :
  match snd (fst (Get g href st)) with
  | Some e => exists s, In s (steps g href st) /\ failure s = Some e
  | None =>
      (forall s, In s (steps g href st) -> failure s = None)
      /\ fst (fst (Get g href st)) <> None
  end.
Proof.
  run_cases g href st.
  all: try match goal with
           | |- match ?x with Some _ => _ | None => _ end => destruct x
           end.
  all: try match goal with
           | |- context [did ?c (Some ?e)] =>
               exists (did c (Some e)); split; [simpl; tauto|reflexivity]
           end.
  split; [|discriminate]. intros s Hin. simpl in Hin.
  repeat (destruct Hin as [<-|Hin]); try contradiction; reflexivity.
Qed.

(** What [Get] returns and how it leaves the world, in terms of the artifact
    fetched and of the codec. *)
Lemma Get_fetch g href st :
  (fst (Get g href st), world (snd (Get g href st))) =
  match url_Parse href with
  | Err e => ((None, Some e), world st)
  | Ok u =>
      match ParseReference (Host u ++ Path u) with
      | Err e => ((None, Some e), world st)
      | Ok ref =>
          match fetch (Client g) ref (world st) with
          | (Err e, w) => ((None, Some e), w)
          | (Ok c, w) =>
              let '((p, err), w') := chartutil_Write c w in
              ((Some (Buffer_Write (NewBuffer []) p), err), w')
          end
      end
  end.
Proof.
  unfold fetch. run_cases g href st; reflexivity.
Qed.

(** C9: the reference is built from the host and the path of the parsed
    href and from nothing else.  Two hrefs that parse and agree on host
    and path, whatever their scheme, query, fragment or user information,
    lead to the same result, the same world, and the same steps after the
    parse, hence the same collaborator calls. *)
Theorem Get_host_path_only g (h1 h2 : string) (u1 u2 : URL) st :
  url_Parse h1 = Ok u1 -> url_Parse h2 = Ok u2 ->
  Host u1 = Host u2 -> Path u1 = Path u2 ->
  fst (Get g h1 st) = fst (Get g h2 st)
  /\ world (snd (Get g h1 st)) = world (snd (Get g h2 st))
  /\ tl (steps g h1 st) = tl (steps g h2 st)
  /\ collaboratorCalls (steps g h1 st) = collaboratorCalls (steps g h2 st).
Proof.
  intros E1 E2 Hh Hp. unfold steps. rewrite !Get_run, E1, E2. cbv zeta.
  rewrite Hh, Hp.
  destruct (ParseReference (Host u2 ++ Path u2)) as [ref|e].
  2: cbn [fst snd]; rewrite !skipn_extend; repeat split.
  destruct (PullChart (Client g) ref (world st)) as [[e|] w1].
  1: cbn [fst snd]; rewrite !skipn_extend; repeat split.
  destruct (LoadChart (Client g) ref w1) as [[c|e] w2].
  2: cbn [fst snd]; rewrite !skipn_extend; repeat split.
  destruct (chartutil_Write c w2) as [[p err] w3].
  cbn [fst snd]; rewrite !skipn_extend; repeat split.
Qed.

Section Repeat.

(** What makes the collaborators deterministic: on the worlds that
    satisfy [I] (say, those with a given registry content) the artifact
    fetched for a reference and the bytes encoded for a chart do not
    depend on the world, and the collaborators keep the world in [I]. *)
Variable I : World -> Prop.
Variable g : Getter error Reference Chart World.

Hypothesis fetch_keeps : forall ref w, I w -> I (snd (fetch (Client g) ref w)).
Hypothesis Write_keeps : forall c w, I w -> I (snd (chartutil_Write c w)).
Hypothesis fetch_same : forall ref w w',
  I w -> I w' -> fst (fetch (Client g) ref w) = fst (fetch (Client g) ref w').
Hypothesis Write_same : forall c w w',
  I w -> I w' -> fst (chartutil_Write c w) = fst (chartutil_Write c w').

Lemma Get_keeps href st : I (world st) -> I (world (snd (Get g href st))).
Proof.
  intros Hst. pose proof (Get_fetch g href st) as E.
  destruct (url_Parse href) as [u|e]; [|injection E as _ ->; exact Hst].
  destruct (ParseReference (Host u ++ Path u)) as [ref|e];
    [|injection E as _ ->; exact Hst].
  pose proof (fetch_keeps ref _ Hst) as Hf.
  destruct (fetch (Client g) ref (world st)) as [[c|e] w]; simpl in Hf;
    [|injection E as _ ->; exact Hf].
  pose proof (Write_keeps c _ Hf) as Hw.
  destruct (chartutil_Write c w) as [[p err] w']; simpl in Hw.
  injection E as _ ->. exact Hw.
Qed.

Lemma Get_same href st st' :
  I (world st) -> I (world st') -> fst (Get g href st) = fst (Get g href st').
Proof.
  intros Hst Hst'.
  pose proof (Get_fetch g href st) as E. pose proof (Get_fetch g href st') as E'.
  destruct (url_Parse href) as [u|e]; [|congruence].
  destruct (ParseReference (Host u ++ Path u)) as [ref|e]; [|congruence].
  pose proof (fetch_same ref _ _ Hst Hst') as Hf.
  pose proof (fetch_keeps ref _ Hst) as Hk.
  pose proof (fetch_keeps ref _ Hst') as Hk'.
  destruct (fetch (Client g) ref (world st)) as [r w].
  destruct (fetch (Client g) ref (world st')) as [r' w'].
  simpl in Hf, Hk, Hk'. subst r'.
  destruct r as [c|e]; [|congruence].
  pose proof (Write_same c _ _ Hk Hk') as Hw.
  destruct (chartutil_Write c w) as [[p err] w3].
  destruct (chartutil_Write c w') as [[p' err'] w3'].
  simpl in Hw. congruence.
Qed.

(** C7: two [Get] calls in sequence with the same href, against a client
    and a codec that return the same artifact and the same bytes each
    time, return the same buffer, byte for byte (and the same error). *)
Theorem Get_repeatable href st :
  I (world st) ->
  let first := Get g href st in
  let second := Get g href (snd first) in
  fst second = fst first.
Proof.
  intros Hst first second. unfold second, first.
  apply Get_same; [apply Get_keeps|]; exact Hst.
Qed.

End Repeat.

End GetFacts.

(** ** [RegistryGetter] *)

Section RegistryGetterFacts.

Context {error Reference Chart Option World : Type}.
Context {imports : Imports error Reference Chart World}.

(** C10: [RegistryGetter.Get] ignores its options.  For every href and any
    two lists of options, empty or not, the call is the call of the
    underlying getter on the href alone, so buffer, error and effects are
    the same. *)
Theorem RegistryGetter_Get_ignores_options
    (rg : RegistryGetter error Reference Chart World) (href : string)
    (options options' : list Option) (st : State error Reference Chart World) :
  RegistryGetter_Get rg href options st = RegistryGetter_Get rg href options' st
  /\ RegistryGetter_Get rg href options st = Get (g rg) href st.
Proof. split; reflexivity. Qed.

End RegistryGetterFacts.

(** ** The reference resolver *)

Section ResolverFacts.

Import Resolver.

Implicit Types (locator : URL) (explicitVersion : string).

(** The tag embedded in a path is present exactly when the path has a
    [':'] after its last ['/']. *)
Lemma existingTag_present (path : string) :
  hasByte ":" (afterLast "/" path) = true <-> existingTag path <> None.
Proof.
  unfold existingTag. destruct (hasByte ":" (afterLast "/" path)); split;
    congruence.
Qed.

(** Cutting the tag off and putting it back gives the path again. *)
Lemma beforeFirst_afterFirst (c : ascii) (s : string) :
  hasByte c s = true ->
  (beforeFirst c s ++ String c (afterFirst c s))%string = s.
Proof.
  induction s as [|b r IH]; simpl; [discriminate|].
  destruct (Ascii.eqb_spec b c) as [->|]; simpl; [reflexivity|].
  intros H. f_equal. exact (IH H).
Qed.

Lemma untagged_tag (path t : string) :
  existingTag path = Some t -> (untagged path ++ ":" ++ t)%string = path.
Proof.
  unfold existingTag, untagged.
  destruct (hasByte ":" (afterLast "/" path)) eqn:E; [|discriminate].
  intros [= <-]. rewrite append_assoc.
  change (":" ++ afterFirst ":" (afterLast "/" path))%string
    with (String ":" (afterFirst ":" (afterLast "/" path))).
  rewrite (beforeFirst_afterFirst _ _ E). apply uptoLast_afterLast.
Qed.

(** C1: for every locator whose last path segment carries a tag (a [':']
    after the last ['/']), resolving with any version that is not empty
    gives the reference that resolving with the empty version gives: the
    tag of the locator is used and the explicit version is ignored. *)
Theorem Resolve_tag_wins locator explicitVersion :
  hasByte ":" (afterLast "/" (Path locator)) = true ->
  explicitVersion <> "" ->
  Resolve locator explicitVersion = Resolve locator ""
  /\ exists r, Resolve locator explicitVersion = inl r
               /\ tag r = afterFirst ":" (afterLast "/" (Path locator))
               /\ render (Scheme locator) r
                  = (Scheme locator ++ "://" ++ Host locator ++ Path locator)%string.
Proof.
  intros Htag _. unfold Resolve.
  destruct (existingTag (Path locator)) as [t|] eqn:E.
  - split; [reflexivity|]. eexists. split; [reflexivity|]. split.
    + simpl. unfold existingTag in E. rewrite Htag in E. congruence.
    + unfold render. cbn [host repositoryPath tag].
      rewrite (untagged_tag _ _ E). reflexivity.
  - apply existingTag_present in Htag. congruence.
Qed.

(** C2: for every locator without a tag and every version that is not
    empty, resolution succeeds; the tag of the reference is the version,
    its host and path are the locator's, so that the URL resolved is the
    locator followed by [':'] and the version. *)
Theorem Resolve_appends_version locator explicitVersion :
  hasByte ":" (afterLast "/" (Path locator)) = false ->
  explicitVersion <> "" ->
  exists r, Resolve locator explicitVersion = inl r
            /\ tag r = explicitVersion
            /\ host r = Host locator
            /\ repositoryPath r = Path locator
            /\ ResolveURL locator explicitVersion
               = inl (Scheme locator ++ "://" ++ Host locator ++ Path locator
                      ++ ":" ++ explicitVersion)%string.
Proof.
  intros Htag Hv. unfold ResolveURL, Resolve, existingTag. rewrite Htag.
  destruct (String.eqb_spec explicitVersion "") as [->|_]; [congruence|].
  eexists. repeat split.
Qed.

(** C3: for every locator without a tag, resolution with the empty version
    fails with [MissingVersion]; no reference comes out, with the tag
    [latest] or any other. *)
Theorem Resolve_missing_version locator :
  hasByte ":" (afterLast "/" (Path locator)) = false ->
  Resolve locator "" = inr MissingVersion
  /\ ResolveURL locator "" = inr MissingVersion
  /\ forall r, Resolve locator "" <> inl r.
Proof.
  intros Htag. unfold ResolveURL, Resolve, existingTag. rewrite Htag. simpl.
  repeat split. discriminate.
Qed.

End ResolverFacts.

(** The three cases of the test suite. *)
Example Resolve_TestAppendsVersionToURL :
  Resolver.ResolveURL (Sample.url "oci" "registry" "/testrepo/testchart") "0.1.0"
  = inl "oci://registry/testrepo/testchart:0.1.0".
Proof. reflexivity. Qed.

Example Resolve_TestDoesntOverrideTagOnURL :
  Resolver.ResolveURL (Sample.url "oci" "registry" "/testrepo/testchart:latest") "0.1.0"
  = inl "oci://registry/testrepo/testchart:latest".
Proof. reflexivity. Qed.

Example Resolve_TestErrorsIfNeitherVersionNorURLIsProvided :
  Resolver.ResolveURL (Sample.url "oci" "registry" "/testrepo/testchart") ""
  = inr Resolver.MissingVersion.
Proof. reflexivity. Qed.

(** ** The statements at work on the sample registry *)

Section SampleFacts.

Import Sample.

Lemma Sample_fetch_keeps (ref : Reference) (w : World) :
  remote w = charts -> remote (snd (fetch client ref w)) = charts.
Proof.
  intros H. unfold fetch. cbn [PullChart LoadChart client]. unfold pull.
  destruct (lookup ref (remote w)) as [c|]; [|exact H].
  unfold load. cbn [cache lookup]. rewrite String.eqb_refl. exact H.
Qed.

Lemma Sample_fetch_same (ref : Reference) (w w' : World) :
  remote w = charts -> remote w' = charts ->
  fst (fetch client ref w) = fst (fetch client ref w').
Proof.
  intros H H'. unfold fetch. cbn [PullChart LoadChart client]. unfold pull.
  rewrite H, H'.
  destruct (lookup ref charts) as [c|]; [|reflexivity].
  unfold load. cbn [cache lookup]. rewrite String.eqb_refl. reflexivity.
Qed.

End SampleFacts.

Lemma Resolve_tag_wins_witness :
  let u := Sample.url "oci" "registry" "/testrepo/testchart:latest" in
  hasByte ":" (afterLast "/" (Path u)) = true
  /\ "0.1.0" <> ""
  /\ Resolver.Resolve u "0.1.0" = Resolver.Resolve u "".
Proof.
  cbv zeta. split; [reflexivity|]. split; [discriminate|].
  destruct (Resolve_tag_wins
              (Sample.url "oci" "registry" "/testrepo/testchart:latest") "0.1.0")
    as [H _]; [reflexivity|discriminate|exact H].
Defined.

Lemma Resolve_appends_version_witness :
  let u := Sample.url "oci" "registry" "/testrepo/testchart" in
  hasByte ":" (afterLast "/" (Path u)) = false
  /\ "0.1.0" <> ""
  /\ exists r, Resolver.Resolve u "0.1.0" = inl r /\ Resolver.tag r = "0.1.0".
Proof.
  cbv zeta. split; [reflexivity|]. split; [discriminate|].
  destruct (Resolve_appends_version
              (Sample.url "oci" "registry" "/testrepo/testchart") "0.1.0")
    as [r [H [Ht _]]]; [reflexivity|discriminate|].
  exists r. split; [exact H|exact Ht].
Defined.

Lemma Resolve_missing_version_witness :
  let u := Sample.url "oci" "registry" "/testrepo/testchart" in
  hasByte ":" (afterLast "/" (Path u)) = false
  /\ Resolver.Resolve u "" = inr Resolver.MissingVersion.
Proof.
  cbv zeta. split; [reflexivity|].
  destruct (Resolve_missing_version
              (Sample.url "oci" "registry" "/testrepo/testchart"))
    as [H _]; [reflexivity|exact H].
Defined.

(** With a codec that fails half way, [Get] hands back the encode error
    together with a buffer that holds the two bytes written: the "no buffer"
    half of error transparency does not hold at the last step. *)
Lemma Get_encode_failure_keeps_buffer :
  ~ NoPartialResult (imports := Sample.importsBroken) Sample.getter
      "oci://registry/testrepo/testchart:1.2.3" Sample.start.
Proof.
  intros H.
  specialize (H {| call := CallWrite "testchart-1.2.3";
                   failure := Some "short write" |} "short write").
  assert (E := H ltac:(vm_compute; tauto) eq_refl).
  vm_compute in E. discriminate E.
Qed.

Example Get_encode_failure_result :
  fst (Get (imports := Sample.importsBroken) Sample.getter
         "oci://registry/testrepo/testchart:1.2.3" Sample.start)
  = (Some {| contents := [Byte.x74; Byte.x65] |}, Some "short write").
Proof. reflexivity. Qed.

Lemma Get_error_transparent_witness :
  let href := "oci://registry/testrepo/testchart:1.2.3" in
  let s : Step Sample.error Sample.Reference Sample.Chart :=
    {| call := CallWrite "testchart-1.2.3"; failure := Some "short write" |} in
  In s (steps (imports := Sample.importsBroken) Sample.getter href Sample.start)
  /\ failure s = Some "short write"
  /\ snd (fst (Get (imports := Sample.importsBroken) Sample.getter href
                 Sample.start))
     = Some "short write"
  /\ exists c w p w',
       Sample.writeBroken c w = ((p, Some "short write"), w')
       /\ fst (fst (Get (imports := Sample.importsBroken) Sample.getter href
                      Sample.start))
          = Some {| contents := p |}.
Proof.
  cbv zeta. split; [vm_compute; tauto|]. split; [reflexivity|].
  destruct (Get_error_transparent (imports := Sample.importsBroken) Sample.getter
              "oci://registry/testrepo/testchart:1.2.3" Sample.start
              {| call := CallWrite "testchart-1.2.3";
                 failure := Some "short write" |} "short write")
    as [He [_ Hw]]; [vm_compute; tauto|reflexivity|].
  split; [exact He|].
  destruct (Hw eq_refl) as (u & ref & c & w & p & w' & _ & _ & _ & _ & Hc & Hb).
  exists c, w, p, w'. split; [exact Hc|exact Hb].
Defined.

Lemma Get_host_path_only_witness :
  let h1 := "oci://registry/testrepo/testchart:1.2.3" in
  let h2 := "https://bob@registry/testrepo/testchart:1.2.3?x=1#top" in
  h1 <> h2
  /\ fst (Get (imports := Sample.imports) Sample.getter h1 Sample.start)
     = fst (Get (imports := Sample.imports) Sample.getter h2 Sample.start)
  /\ collaboratorCalls (steps (imports := Sample.imports) Sample.getter h1 Sample.start)
     = collaboratorCalls (steps (imports := Sample.imports) Sample.getter h2 Sample.start).
Proof.
  cbv zeta. split; [discriminate|].
  destruct (Get_host_path_only (imports := Sample.imports) Sample.getter
              "oci://registry/testrepo/testchart:1.2.3"
              "https://bob@registry/testrepo/testchart:1.2.3?x=1#top"
              (Sample.url "oci" "registry" "/testrepo/testchart:1.2.3")
              {| Scheme := "https"; Opaque := "";
                 User := Some {| username := "bob"; password := "";
                                 passwordSet := false |};
                 Host := "registry"; Path := "/testrepo/testchart:1.2.3";
                 RawPath := ""; ForceQuery := false;
                 RawQuery := "x=1"; Fragment := "top" |}
              Sample.start)
    as [Hr [_ [_ Hc]]]; [reflexivity|reflexivity|reflexivity|reflexivity|].
  split; [exact Hr|exact Hc].
Defined.

Lemma Get_repeatable_witness :
  let href := "oci://registry/testrepo/testchart:1.2.3" in
  let first := Get (imports := Sample.imports) Sample.getter href Sample.start in
  let second := Get (imports := Sample.imports) Sample.getter href (snd first) in
  Sample.remote (world Sample.start) = Sample.charts
  /\ snd first <> Sample.start
  /\ fst second = fst first.
Proof.
  cbv zeta. split; [reflexivity|]. split; [discriminate|].
  exact (Get_repeatable (imports := Sample.imports)
           (fun w => Sample.remote w = Sample.charts) Sample.getter
           Sample_fetch_keeps (fun c w H => H)
           Sample_fetch_same (fun c w w' _ _ => eq_refl)
           "oci://registry/testrepo/testchart:1.2.3" Sample.start eq_refl).
Defined.

(* ================================================================== *)
(** * Part III: further properties of the code *)
(* ================================================================== *)

(** ** [strings.Split] *)

Section SplitFacts.

Variable c : ascii.

Lemma CountString_zero (s : string) :
  CountString s c = 0 -> hasByte c s = false.
Proof.
  induction s as [|b r IH]; simpl; [reflexivity|].
  destruct (Ascii.eqb b c); simpl; [discriminate|exact IH].
Qed.

Lemma CountString_afterFirst (s : string) (m : nat) :
  IndexByte s c = Some m ->
  CountString s c = S (CountString (afterFirst c s) c).
Proof.
  revert m. induction s as [|b r IH]; simpl; [discriminate|].
  intros m. destruct (Ascii.eqb b c); simpl; [reflexivity|].
  destruct (IndexByte r c) as [k|] eqn:E; simpl; [|discriminate].
  intros _. exact (IH k eq_refl).
Qed.

Lemma Split_genSplit (s : string) : Split s c = genSplit (CountString s c) s c.
Proof.
  unfold Split. pose proof (CountString_le_len c s) as Hle.
  destruct (Nat.ltb_spec (len s + 1) (CountString s c + 1)) as [Hlt|_]; [lia|].
  f_equal. lia.
Qed.

Lemma genSplit_nonempty (k : nat) (s : string) : genSplit k s c <> [].
Proof.
  destruct k as [|k]; simpl; [discriminate|].
  destruct (IndexByte s c); discriminate.
Qed.

Lemma genSplit_length (k : nat) (s : string) :
  CountString s c <= k -> length (genSplit k s c) = CountString s c + 1.
Proof.
  revert s. induction k as [|k IH]; intros s Hk; simpl.
  - lia.
  - destruct (IndexByte s c) as [m|] eqn:E.
    + rewrite (sliceFrom_IndexByte c s m E).
      pose proof (CountString_afterFirst s m E) as Hc.
      simpl. rewrite IH; lia.
    + apply IndexByte_None_hasByte in E.
      rewrite (CountString_hasByte c s E). reflexivity.
Qed.

Lemma genSplit_no_sep (k : nat) (s : string) :
  CountString s c <= k ->
  Forall (fun p => hasByte c p = false) (genSplit k s c).
Proof.
  revert s. induction k as [|k IH]; intros s Hk; simpl.
  - constructor; [|constructor]. apply CountString_zero. lia.
  - destruct (IndexByte s c) as [m|] eqn:E.
    + rewrite (sliceFrom_IndexByte c s m E), (sliceTo_IndexByte c s m E).
      pose proof (CountString_afterFirst s m E) as Hc.
      constructor; [apply beforeFirst_no_byte|apply IH; lia].
    + constructor; [|constructor]. apply IndexByte_None_hasByte. exact E.
Qed.

Lemma genSplit_joinWith (k : nat) (s : string) : joinWith c (genSplit k s c) = s.
Proof.
  revert s. induction k as [|k IH]; intros s; simpl; [reflexivity|].
  destruct (IndexByte s c) as [m|] eqn:E; [|reflexivity].
  rewrite (sliceFrom_IndexByte c s m E), (sliceTo_IndexByte c s m E).
  pose proof (genSplit_nonempty k (afterFirst c s)) as Hne.
  specialize (IH (afterFirst c s)).
  destruct (genSplit k (afterFirst c s) c) as [|p rest]; [congruence|].
  cbn [joinWith] in *. rewrite IH.
  apply beforeFirst_afterFirst.
  destruct (hasByte c s) eqn:Eh; [reflexivity|].
  apply IndexByte_None_hasByte in Eh. congruence.
Qed.

(** X1: [strings.Split] cuts at every separator: it returns one piece more
    than the string has separator bytes, and no piece contains the
    separator. *)
Theorem Split_pieces (s : string) :
  length (Split s c) = CountString s c + 1
  /\ Forall (fun p => hasByte c p = false) (Split s c).
Proof.
  rewrite Split_genSplit. split.
  - apply genSplit_length. lia.
  - apply genSplit_no_sep. lia.
Qed.

(** X2: [strings.Split] loses nothing: the pieces written one after the
    other, with the separator between them, are the string that was
    split. *)
Theorem Split_joinWith (s : string) : joinWith c (Split s c) = s.
Proof. rewrite Split_genSplit. apply genSplit_joinWith. Qed.

End SplitFacts.

(** ** [filepath.Base] *)

Lemma trimSlashes_snoc (s : string) : trimSlashes (s ++ "/") = trimSlashes s.
Proof.
  induction s as [|b r IH]; [reflexivity|].
  cbn [append trimSlashes]. rewrite IH. reflexivity.
Qed.

Lemma trimSlashes_empty (s : string) :
  trimSlashes s = "" <-> onlySlashes s = true.
Proof.
  induction s as [|b r IH]; [simpl; tauto|].
  cbn [trimSlashes onlySlashes].
  destruct (trimSlashes r) as [|a q].
  - destruct (Ascii.eqb b "/"); simpl.
    + split; intros _; [apply IH|]; reflexivity.
    + split; discriminate.
  - split; [discriminate|]. intros H. apply andb_true_iff in H.
    destruct H as [_ H]. apply IH in H. discriminate.
Qed.

Lemma trimSlashes_no_trailing (s r : string) : trimSlashes s <> r ++ "/".
Proof.
  revert r. induction s as [|b q IH]; intros r.
  - destruct r; discriminate.
  - cbn [trimSlashes]. destruct (trimSlashes q) as [|a t] eqn:E.
    + destruct (Ascii.eqb_spec b "/") as [->|Hb].
      * destruct r; discriminate.
      * destruct r as [|x [|y r']]; simpl; try discriminate.
        intros [= ->]. congruence.
    + destruct r as [|x r']; simpl; [discriminate|].
      intros [= _ H]. exact (IH r' H).
Qed.

Lemma hasByte_app (c : ascii) (s t : string) :
  hasByte c (s ++ t) = hasByte c s || hasByte c t.
Proof.
  induction s as [|b r IH]; simpl; [reflexivity|].
  rewrite IH. apply orb_assoc.
Qed.

Lemma afterLast_app (c : ascii) (dir name : string) :
  hasByte c name = false -> afterLast c (dir ++ String c name) = name.
Proof.
  intros Hn. induction dir as [|a d IH]; cbn [append afterLast].
  - rewrite Hn, Ascii.eqb_refl. reflexivity.
  - rewrite hasByte_app. cbn [hasByte]. rewrite Ascii.eqb_refl.
    rewrite orb_true_r. exact IH.
Qed.

Lemma afterLast_absent (c : ascii) (s : string) :
  hasByte c s = false -> afterLast c s = s.
Proof.
  destruct s as [|b r]; [reflexivity|]. cbn [hasByte afterLast].
  intros H. apply orb_false_elim in H. destruct H as [Hb Hr].
  rewrite Hr, Hb. reflexivity.
Qed.

Lemma trimSlashes_plain (name : string) :
  name <> "" -> hasByte "/" name = false -> trimSlashes name = name.
Proof.
  intros Hne Hn. apply trimSlashes_id. intros r ->.
  rewrite hasByte_app in Hn. simpl in Hn. rewrite orb_true_r in Hn.
  discriminate.
Qed.

Lemma trimSlashes_app (s name : string) :
  name <> "" -> hasByte "/" name = false -> trimSlashes (s ++ name) = s ++ name.
Proof.
  intros Hne Hn. induction s as [|b r IH]; [apply trimSlashes_plain; assumption|].
  cbn [append trimSlashes]. rewrite IH.
  destruct (r ++ name) eqn:E; [|reflexivity].
  destruct r; simpl in E; [congruence|discriminate].
Qed.

Lemma lastElement_name (name : string) :
  name <> "" -> hasByte "/" name = false -> lastElement name = name.
Proof.
  intros Hne Hn. unfold lastElement.
  rewrite (trimSlashes_plain _ Hne Hn), (afterLast_absent _ _ Hn).
  destruct name; [congruence|reflexivity].
Qed.

Lemma lastElement_dir_name (dir name : string) :
  name <> "" -> hasByte "/" name = false ->
  lastElement (dir ++ "/" ++ name) = name.
Proof.
  intros Hne Hn. unfold lastElement.
  change ("/" ++ name) with (String "/" name).
  assert (Hs : hasByte "/" (String "/" name) = true) by reflexivity.
  replace (trimSlashes (dir ++ String "/" name)) with (dir ++ String "/" name).
  - rewrite (afterLast_app _ _ _ Hn).
    destruct (dir ++ String "/" name) eqn:E.
    + destruct dir; discriminate E.
    + destruct name; [congruence|reflexivity].
  - symmetry.
    change (String "/" name) with ("/" ++ name).
    assert (H : forall a b, trimSlashes (a ++ b ++ name) = a ++ b ++ name).
    { intros a b. rewrite <- !append_assoc.
      apply trimSlashes_app; assumption. }
    apply H.
Qed.

Lemma lastElement_shape (path : string) :
  lastElement path <> ""
  /\ (lastElement path = "/" \/ hasByte "/" (lastElement path) = false)
  /\ (lastElement path = "/" <-> path <> "" /\ onlySlashes path = true).
Proof.
  unfold lastElement.
  destruct path as [|a r].
  - split; [discriminate|]. split; [right; reflexivity|].
    split; [discriminate|]. intros [H _]. congruence.
  - set (p := String a r).
    pose proof (afterLast_no_byte "/" (trimSlashes p)) as Hno.
    destruct (afterLast "/" (trimSlashes p)) as [|x e] eqn:E.
    + split; [discriminate|]. split; [left; reflexivity|].
      split; [|reflexivity]. intros _. split; [discriminate|].
      apply trimSlashes_empty.
      destruct (trimSlashes p) as [|y t] eqn:Et; [reflexivity|].
      exfalso. refine (afterLast_nonempty "/" (String y t) _ _ E);
        [discriminate|].
      intros q Hq. apply (trimSlashes_no_trailing p q). congruence.
    + split; [discriminate|]. split; [right; exact Hno|].
      split.
      * intros H. rewrite H in Hno. discriminate Hno.
      * intros [_ H]. apply trimSlashes_empty in H. rewrite H in E.
        discriminate E.
Qed.

(** X3: the base of a path is never empty and holds no separator, except
    that it is the single separator exactly when the path is not empty and
    made of separators only. *)
Theorem Base_shape (path : string) :
  Base path <> ""
  /\ (Base path = "/" \/ hasByte "/" (Base path) = false)
  /\ (Base path = "/" <-> path <> "" /\ onlySlashes path = true).
Proof. rewrite Base_lastElement. apply lastElement_shape. Qed.

(** X4: trailing separators do not count: a path that is not empty has the
    base it has with one more separator at its end. *)
Theorem Base_trailing_slash (path : string) :
  path <> "" -> Base (path ++ "/") = Base path.
Proof.
  intros Hne. rewrite !Base_lastElement. unfold lastElement.
  rewrite trimSlashes_snoc.
  destruct path as [|a r]; [congruence|]. reflexivity.
Qed.

(** X5: the directory does not count: the base of a name that is not empty
    and holds no separator is the name, alone or behind any directory. *)
Theorem Base_dir_name (dir name : string) :
  name <> "" -> hasByte "/" name = false ->
  Base (dir ++ "/" ++ name) = name /\ Base name = name.
Proof.
  intros Hne Hn. rewrite !Base_lastElement. split.
  - apply lastElement_dir_name; assumption.
  - apply lastElement_name; assumption.
Qed.

(** X6: [filepath.Base] is idempotent. *)
Theorem Base_idempotent (path : string) : Base (Base path) = Base path.
Proof.
  rewrite (Base_lastElement path).
  destruct (lastElement_shape path) as [Hne [[H|H] _]].
  - rewrite H. reflexivity.
  - rewrite Base_lastElement. apply lastElement_name; assumption.
Qed.

(** ** [Filename], further *)

Lemma beforeFirst_app (c : ascii) (name t : string) :
  hasByte c name = false -> beforeFirst c (name ++ String c t) = name.
Proof.
  induction name as [|b r IH]; cbn [append hasByte beforeFirst].
  - intros _. rewrite Ascii.eqb_refl. reflexivity.
  - intros H. apply orb_false_elim in H. destruct H as [Hb Hr].
    rewrite Hb. f_equal. exact (IH Hr).
Qed.

Lemma hasByte_beforeFirst (d c : ascii) (s : string) :
  hasByte d s = false -> hasByte d (beforeFirst c s) = false.
Proof.
  induction s as [|b r IH]; simpl; [reflexivity|].
  intros H. apply orb_false_elim in H. destruct H as [Hb Hr].
  destruct (Ascii.eqb b c); simpl; [reflexivity|].
  rewrite Hb. exact (IH Hr).
Qed.

Lemma length_append (s t : string) :
  String.length (s ++ t) = String.length s + String.length t.
Proof. induction s as [|b r IH]; simpl; [reflexivity|rewrite IH; reflexivity]. Qed.

Lemma append_inv_head (a x y : string) : a ++ x = a ++ y -> x = y.
Proof.
  induction a as [|b r IH]; simpl; [tauto|].
  intros [= H]. exact (IH H).
Qed.

Lemma append_inv_tail (t x y : string) : x ++ t = y ++ t -> x = y.
Proof.
  revert y. induction x as [|b r IH]; intros y H.
  - destruct y as [|c q]; [reflexivity|].
    apply (f_equal String.length) in H. simpl in H.
    rewrite length_append in H. lia.
  - destruct y as [|c q].
    + apply (f_equal String.length) in H. simpl in H.
      rewrite length_append in H. lia.
    + simpl in H. injection H as -> H. f_equal. exact (IH q H).
Qed.

Section FilenameMore.

Context {error Reference Chart World : Type}.
Implicit Types (g : Getter error Reference Chart World) (u : URL).

Lemma Filename_lastElement g u (version : string) :
  Filename g u version =
  Some (beforeFirst ":" (lastElement (Path u)) ++ "-" ++ version ++ ".tgz").
Proof.
  unfold Filename.
  destruct (Split_head ":" (Base (Path u))) as [rest ->].
  simpl. rewrite Base_lastElement. reflexivity.
Qed.

(** X7: neither the directory nor the tag reaches the file name.  For a
    chart name without ['/'] and [':'] and a tag without ['/'], the path
    [dir/name:tag] gives [name-version.tgz], whatever [dir] and [tag] are;
    so does [dir/name] when the name is not empty. *)
Theorem Filename_name g u (dir name tag version : string) :
  hasByte "/" name = false -> hasByte ":" name = false ->
  hasByte "/" tag = false ->
  Filename g (withPath u (dir ++ "/" ++ name ++ ":" ++ tag)) version
    = Some (name ++ "-" ++ version ++ ".tgz")
  /\ (name <> "" ->
      Filename g (withPath u (dir ++ "/" ++ name)) version
        = Some (name ++ "-" ++ version ++ ".tgz")).
Proof.
  intros Hs Hc Ht. rewrite !Filename_lastElement. cbn [Path withPath]. split.
  - rewrite (lastElement_dir_name dir (name ++ ":" ++ tag)).
    + change (":" ++ tag) with (String ":" tag).
      rewrite (beforeFirst_app _ _ _ Hc). reflexivity.
    + destruct name; discriminate.
    + rewrite hasByte_app, Hs. cbn [append hasByte]. rewrite Ht. reflexivity.
  - intros Hne. rewrite (lastElement_dir_name dir name Hne Hs).
    rewrite (beforeFirst_absent _ _ Hc). reflexivity.
Qed.

(** X8: a trailing slash on a path that is not empty does not change the
    file name. *)
Theorem Filename_trailing_slash g u (version : string) :
  Path u <> "" ->
  Filename g (withPath u (Path u ++ "/")) version = Filename g u version.
Proof.
  intros Hne. rewrite !Filename_lastElement. cbn [Path withPath].
  unfold lastElement. rewrite trimSlashes_snoc.
  destruct (Path u) as [|a r]; [congruence|]. reflexivity.
Qed.

(** X9: a path without any element still gives a file name: [".-version.tgz"]
    for the empty path and ["/-version.tgz"] for a path made of slashes. *)
Theorem Filename_only_slashes g u (version : string) :
  onlySlashes (Path u) = true ->
  Filename g u version =
  Some ((if String.eqb (Path u) "" then "." else "/") ++ "-" ++ version ++ ".tgz").
Proof.
  intros H. rewrite Filename_lastElement.
  destruct (Path u) as [|a r] eqn:E; [reflexivity|].
  change (String.eqb (String a r) "") with false. cbv iota.
  destruct (lastElement_shape (String a r)) as [_ [_ [_ Hs]]].
  rewrite Hs; [reflexivity|]. split; [discriminate|exact H].
Qed.

(** X10: as soon as the path has a byte that is not a slash, what precedes
    ["-version.tgz"] in the file name holds neither a ['/'] nor a [':']. *)
Theorem Filename_safe_base g u (version : string) :
  onlySlashes (Path u) = false ->
  exists base,
    Filename g u version = Some (base ++ "-" ++ version ++ ".tgz")
    /\ hasByte "/" base = false /\ hasByte ":" base = false.
Proof.
  intros H. rewrite Filename_lastElement.
  exists (beforeFirst ":" (lastElement (Path u))).
  split; [reflexivity|]. split; [|apply beforeFirst_no_byte].
  apply hasByte_beforeFirst.
  destruct (lastElement_shape (Path u)) as [_ [[Hs|Hs] Hiff]]; [|exact Hs].
  destruct (proj1 Hiff Hs) as [_ Ho]. congruence.
Qed.

(** X11: for one URL, two versions that differ never get the same file
    name. *)
Theorem Filename_version_injective g u (v1 v2 : string) :
  v1 <> v2 -> Filename g u v1 <> Filename g u v2.
Proof.
  intros Hne. rewrite !Filename_lastElement. intros [= H].
  apply append_inv_head in H. apply (append_inv_head "-") in H.
  exact (Hne (append_inv_tail _ _ _ H)).
Qed.

(** X12: the file name does not tell the name from the version: the chart
    [name-v1] at version [v2] and the chart [name] at version [v1-v2] get
    the same file name. *)
Theorem Filename_collision g u (dir name v1 v2 : string) :
  name <> "" ->
  hasByte "/" name = false -> hasByte ":" name = false ->
  hasByte "/" v1 = false -> hasByte ":" v1 = false ->
  Filename g (withPath u (dir ++ "/" ++ name ++ "-" ++ v1)) v2
  = Filename g (withPath u (dir ++ "/" ++ name)) (v1 ++ "-" ++ v2).
Proof.
  intros Hne Hs Hc Hs1 Hc1. rewrite !Filename_lastElement. cbn [Path withPath].
  rewrite (lastElement_dir_name dir name Hne Hs).
  rewrite (lastElement_dir_name dir (name ++ "-" ++ v1)).
  - rewrite !beforeFirst_absent.
    + rewrite !append_assoc. reflexivity.
    + exact Hc.
    + rewrite !hasByte_app, Hc, Hc1. reflexivity.
  - destruct name; [congruence|discriminate].
  - rewrite !hasByte_app, Hs, Hs1. reflexivity.
Qed.

End FilenameMore.

(** ** [Get], further *)

Section GetMore.

Context {error Reference Chart World : Type}.
Context {imports : Imports error Reference Chart World}.
Implicit Types (g : Getter error Reference Chart World).
Implicit Types (st : State error Reference Chart World).

(** The stages of one run, as in [Get_run]. *)
Ltac by_stage g href st :=
  unfold steps; rewrite ?Get_run; cbv zeta;
  let Eu := fresh "Eu" in let Er := fresh "Er" in let Ep := fresh "Ep" in
  let El := fresh "El" in let Ew := fresh "Ew" in
  destruct (url_Parse href) as [?u|?e] eqn:Eu;
  [ destruct (ParseReference (Host u ++ Path u)) as [?ref|?e] eqn:Er;
    [ destruct (PullChart (Client g) ref (world st)) as [[?e|] ?w1] eqn:Ep;
      [ | destruct (LoadChart (Client g) ref w1) as [[?c|?e] ?w2] eqn:El;
          [ destruct (chartutil_Write c w2) as [[?p ?err] ?w3] eqn:Ew | ] ]
    | ]
  | ];
  cbn [fst snd]; rewrite ?skipn_extend.

(** X13: [Get] returns a nil error exactly when the href parses, its host
    and path make a reference, the client pulls and loads a chart for it
    and the codec writes the chart without error; the buffer returned then
    holds the bytes the codec wrote and nothing else, and the world is the
    one the codec left. *)
Theorem Get_delivers g href st :
  snd (fst (Get g href st)) = None <->
  exists u ref c w p w',
    url_Parse href = Ok u
    /\ ParseReference (Host u ++ Path u) = Ok ref
    /\ fetch (Client g) ref (world st) = (Ok c, w)
    /\ chartutil_Write c w = ((p, None), w')
    /\ fst (fst (Get g href st)) = Some {| contents := p |}
    /\ world (snd (Get g href st)) = w'.
Proof.
  pose proof (Get_fetch g href st) as E.
  destruct (fst (Get g href st)) as [buf err].
  set (wf := world (snd (Get g href st))) in *. clearbody wf. cbn [fst snd].
  destruct (url_Parse href) as [u|e] eqn:Eu.
  2: { injection E as -> -> _. split; [discriminate|].
       intros (? & ? & ? & ? & ? & ? & H & _). discriminate H. }
  destruct (ParseReference (Host u ++ Path u)) as [ref|e] eqn:Er.
  2: { injection E as -> -> _. split; [discriminate|].
       intros (u' & ? & ? & ? & ? & ? & Hu & H & _).
       injection Hu as <-. congruence. }
  destruct (fetch (Client g) ref (world st)) as [[c|e] w] eqn:Ef.
  2: { injection E as -> -> _. split; [discriminate|].
       intros (u' & ref' & ? & ? & ? & ? & Hu & Hr & H & _).
       injection Hu as <-. rewrite Er in Hr. injection Hr as <-.
       congruence. }
  destruct (chartutil_Write c w) as [[p err'] w'] eqn:Ew.
  injection E as -> -> ->. split.
  - intros ->. exists u, ref, c, w, p, w'. repeat split; assumption.
  - intros (u' & ref' & c' & w0 & p' & w0' & Hu & Hr & Hf & Hw & _).
    injection Hu as <-. rewrite Er in Hr. injection Hr as <-.
    rewrite Ef in Hf. injection Hf as <- <-. rewrite Ew in Hw.
    injection Hw as _ H _. exact H.
Qed.

(** X14: [Get] returns a buffer exactly when it got as far as the write
    step; it returns nil for the buffer exactly when an earlier step
    stopped it. *)
Theorem Get_buffer_iff_write g href st :
  fst (fst (Get g href st)) <> None <->
  exists s, In s (steps g href st) /\ kind (call s) = KWrite.
Proof.
  by_stage g href st.
  2: { split; [intros _|discriminate].
       eexists. split; [do 4 right; left; reflexivity|reflexivity]. }
  all: split; [congruence|].
  all: intros (s & Hin & Hk); simpl in Hin.
  all: repeat (destruct Hin as [<-|Hin]); try contradiction; discriminate Hk.
Qed.

(** X15: when the href does not parse, or its host and path do not make a
    reference, [Get] returns that error and no buffer without a single
    call to the client or the codec, and the world stays as it was. *)
Theorem Get_rejects_before_client g href st (e : error) :
  url_Parse href = Err e
  \/ (exists u, url_Parse href = Ok u
                /\ ParseReference (Host u ++ Path u) = Err e) ->
  fst (Get g href st) = (None, Some e)
  /\ world (snd (Get g href st)) = world st
  /\ collaboratorCalls (steps g href st) = [].
Proof.
  intros [H|(u & Hu & Hr)]; unfold steps; rewrite Get_run.
  - rewrite H. cbn [fst snd]. rewrite skipn_extend. repeat split.
  - rewrite Hu. cbv zeta. rewrite Hr. cbn [fst snd]. rewrite skipn_extend.
    repeat split.
Qed.

(** X16: [Get] never retries and never skips ahead.  In one call every kind
    of step happens at most once, the chart is loaded only if it was pulled
    and written only if it was loaded; and these steps are all the calls
    made: each has the outcome recorded, and the world [Get] leaves is the
    one that these calls, made once each and in this order, leave. *)
Theorem Get_no_retry g href st :
  (forall k, occurrences k (steps g href st) <= 1)
  /\ occurrences KLoadChart (steps g href st)
     <= occurrences KPullChart (steps g href st)
  /\ occurrences KWrite (steps g href st)
     <= occurrences KLoadChart (steps g href st)
  /\ performed g (world st) (steps g href st)
  /\ world (snd (Get g href st)) = replay g (world st) (steps g href st).
Proof.
  split; [|split; [|split; [|split;
    [apply Get_performed|apply Get_world_replay]]]].
  all: by_stage g href st.
  all: try (intros k; destruct k); cbn; lia.
Qed.

End GetMore.

(** ** The further properties at work *)

Example Split_tagged :
  Split "testchart:1.2.3" ":" = ["testchart"; "1.2.3"]
  /\ Split "testchart" ":" = ["testchart"]
  /\ Split "" ":" = [""].
Proof. repeat split. Qed.

Lemma Base_trailing_slash_witness :
  "/testrepo/testchart" <> ""
  /\ Base ("/testrepo/testchart" ++ "/") = Base "/testrepo/testchart".
Proof.
  split; [discriminate|].
  apply (Base_trailing_slash "/testrepo/testchart"). discriminate.
Defined.

Lemma Base_dir_name_witness :
  "testchart" <> "" /\ hasByte "/" "testchart" = false
  /\ Base ("/testrepo" ++ "/" ++ "testchart") = "testchart".
Proof.
  split; [discriminate|]. split; [reflexivity|].
  destruct (Base_dir_name "/testrepo" "testchart") as [H _];
    [discriminate|reflexivity|exact H].
Defined.

Lemma Filename_name_witness :
  hasByte "/" "chart" = false /\ hasByte ":" "chart" = false
  /\ hasByte "/" "latest" = false
  /\ Filename Sample.getter
       (withPath (Sample.url "oci" "registry" "") ("/testrepo" ++ "/" ++ "chart" ++ ":" ++ "latest"))
       "0.1.0"
     = Some ("chart" ++ "-" ++ "0.1.0" ++ ".tgz").
Proof.
  split; [reflexivity|]. split; [reflexivity|]. split; [reflexivity|].
  destruct (Filename_name Sample.getter (Sample.url "oci" "registry" "")
              "/testrepo" "chart" "latest" "0.1.0") as [H _];
    [reflexivity|reflexivity|reflexivity|exact H].
Defined.

Lemma Filename_trailing_slash_witness :
  let u := Sample.url "oci" "registry" "/testrepo/chart:latest" in
  Path u <> ""
  /\ Filename Sample.getter (withPath u (Path u ++ "/")) "0.1.0"
     = Filename Sample.getter u "0.1.0".
Proof.
  cbv zeta. split; [discriminate|].
  apply (Filename_trailing_slash Sample.getter
           (Sample.url "oci" "registry" "/testrepo/chart:latest") "0.1.0").
  discriminate.
Defined.

Lemma Filename_only_slashes_witness :
  let u := Sample.url "oci" "registry" "//" in
  onlySlashes (Path u) = true
  /\ Filename Sample.getter u "0.1.0" = Some "/-0.1.0.tgz".
Proof.
  cbv zeta. split; [reflexivity|].
  apply (Filename_only_slashes Sample.getter (Sample.url "oci" "registry" "//") "0.1.0").
  reflexivity.
Defined.

Lemma Filename_safe_base_witness :
  let u := Sample.url "oci" "registry" "/testrepo/chart:latest" in
  onlySlashes (Path u) = false
  /\ exists base,
       Filename Sample.getter u "0.1.0" = Some (base ++ "-" ++ "0.1.0" ++ ".tgz")
       /\ hasByte "/" base = false /\ hasByte ":" base = false.
Proof.
  cbv zeta. split; [reflexivity|].
  apply (Filename_safe_base Sample.getter
           (Sample.url "oci" "registry" "/testrepo/chart:latest") "0.1.0").
  reflexivity.
Defined.

Lemma Filename_version_injective_witness :
  let u := Sample.url "oci" "registry" "/testrepo/chart" in
  "0.1.0" <> "1.2.3"
  /\ Filename Sample.getter u "0.1.0" <> Filename Sample.getter u "1.2.3".
Proof.
  cbv zeta. split; [discriminate|].
  apply (Filename_version_injective Sample.getter
           (Sample.url "oci" "registry" "/testrepo/chart") "0.1.0" "1.2.3").
  discriminate.
Defined.

Lemma Filename_collision_witness :
  let u := Sample.url "oci" "registry" "" in
  "chart" <> ""
  /\ hasByte "/" "chart" = false /\ hasByte ":" "chart" = false
  /\ hasByte "/" "0.1.0" = false /\ hasByte ":" "0.1.0" = false
  /\ Filename Sample.getter (withPath u ("/testrepo" ++ "/" ++ "chart" ++ "-" ++ "0.1.0")) "rc1"
     = Filename Sample.getter (withPath u ("/testrepo" ++ "/" ++ "chart")) ("0.1.0" ++ "-" ++ "rc1").
Proof.
  cbv zeta. split; [discriminate|]. repeat (split; [reflexivity|]).
  apply (Filename_collision Sample.getter (Sample.url "oci" "registry" "")
           "/testrepo" "chart" "0.1.0" "rc1");
    [discriminate|reflexivity|reflexivity|reflexivity|reflexivity].
Defined.

Lemma Get_rejects_before_client_witness :
  (Sample.parseURL "oci://registry" = Err "invalid reference"
   \/ exists u, Sample.parseURL "oci://registry" = Ok u
                /\ Sample.parseRef (Host u ++ Path u) = Err "invalid reference")
  /\ fst (Get (imports := Sample.imports) Sample.getter "oci://registry" Sample.start)
     = (None, Some "invalid reference")
  /\ world (snd (Get (imports := Sample.imports) Sample.getter "oci://registry"
                   Sample.start))
     = world Sample.start.
Proof.
  assert (H : Sample.parseURL "oci://registry" = Err "invalid reference"
              \/ exists u, Sample.parseURL "oci://registry" = Ok u
                 /\ Sample.parseRef (Host u ++ Path u) = Err "invalid reference").
  { right. eexists. split; reflexivity. }
  split; [exact H|].
  destruct (Get_rejects_before_client (imports := Sample.imports) Sample.getter
              "oci://registry" Sample.start "invalid reference" H)
    as [Hr [Hw _]].
  split; [exact Hr|exact Hw].
Defined.

Example Get_delivers_sample :
  fst (Get (imports := Sample.imports) Sample.getter
         "oci://registry/testrepo/testchart:1.2.3" Sample.start)
  = (Some {| contents := list_byte_of_string "testchart-1.2.3" |}, None).
Proof. reflexivity. Qed.
